(** * The contact-form pipeline of [script.js]

    A shallow embedding of the contact-form block of [src/script.js]
    (the [safe(() => { const forms = $$('.contact-form'); ... })] part):
    the input-name normalizer, the validation block, the best-effort
    append to [localStorage] and the feedback shown in the toast.

    JavaScript strings are sequences of UTF-16 code units; they are
    modelled as [list N], so that [.length], [.trim()] and the regular
    expression of the e-mail check see what the script sees. *)

From Stdlib Require Import ZArith NArith List Ascii String Bool Lia DecimalNat.
From stdpp Require Import gmap list strings.

Open Scope N_scope.

(** ** Strings *)

(** A literal of the script, as code units (the literals of the modelled
    block are ASCII). *)
Definition js (s : string) : list N :=
  map N_of_ascii (list_ascii_of_string s).

(** ECMAScript [WhiteSpace] and [LineTerminator] code points: what
    [String.prototype.trim] strips and what [\s] matches. *)
Definition is_space (c : N) : bool :=
  (c =? 9) || (c =? 10) || (c =? 11) || (c =? 12) || (c =? 13) || (c =? 32)
  || (c =? 160) || (c =? 5760)
  || ((8192 <=? c) && (c <=? 8202))
  || (c =? 8232) || (c =? 8233) || (c =? 8239) || (c =? 8287)
  || (c =? 12288) || (c =? 65279).

Fixpoint trimStart (s : list N) : list N :=
  match s with
  | c :: s' => if is_space c then trimStart s' else s
  | [] => []
  end.

Definition trimEnd (s : list N) : list N := rev (trimStart (rev s)).

(** [v.trim()] *)
Definition trim (s : list N) : list N := trimEnd (trimStart s).

(** ** Regular expressions

    The fragment of the regular-expression language the script uses:
    character classes, literal characters, concatenation and [+].
    [Void], [Eps] and [Alt] are there for the derivatives. *)

Inductive regex : Type :=
| Void
| Eps
| Class (p : N -> bool)
| Alt (r1 r2 : regex)
| Cat (r1 r2 : regex)
| Plus (r : regex).

(** The words a regular expression matches from its first to its last
    character (the script's pattern is anchored by [^] and [$]). *)
Inductive matches : regex -> list N -> Prop :=
| M_Eps : matches Eps []
| M_Class p c : p c = true -> matches (Class p) [c]
| M_AltL r1 r2 s : matches r1 s -> matches (Alt r1 r2) s
| M_AltR r1 r2 s : matches r2 s -> matches (Alt r1 r2) s
| M_Cat r1 r2 s1 s2 :
    matches r1 s1 -> matches r2 s2 -> matches (Cat r1 r2) (s1 ++ s2)
| M_Plus1 r s : matches r s -> matches (Plus r) s
| M_PlusS r s1 s2 :
    matches r s1 -> matches (Plus r) s2 -> matches (Plus r) (s1 ++ s2).

Fixpoint nullable (r : regex) : bool :=
  match r with
  | Void => false
  | Eps => true
  | Class _ => false
  | Alt r1 r2 => nullable r1 || nullable r2
  | Cat r1 r2 => nullable r1 && nullable r2
  | Plus r => nullable r
  end.

(** Brzozowski derivative: what is left to match after reading [c]. *)
Fixpoint deriv (c : N) (r : regex) : regex :=
  match r with
  | Void => Void
  | Eps => Void
  | Class p => if p c then Eps else Void
  | Alt r1 r2 => Alt (deriv c r1) (deriv c r2)
  | Cat r1 r2 =>
      if nullable r1
      then Alt (Cat (deriv c r1) r2) (deriv c r2)
      else Cat (deriv c r1) r2
  | Plus r => Alt (deriv c r) (Cat (deriv c r) (Plus r))
  end.

(** [re.test(s)] for an anchored pattern without flags. *)
Fixpoint test (r : regex) (s : list N) : bool :=
  match s with
  | [] => nullable r
  | c :: s' => test (deriv c r) s'
  end.

Definition chr (a : ascii) : regex := Class (N.eqb (N_of_ascii a)).

(** The class [[^\s@]]. *)
Definition not_space_at (c : N) : bool :=
  negb (is_space c) && negb (c =? 64).

(** [/^[^\s@]+@[^\s@]+\.[^\s@]+$/] *)
Definition email_re : regex :=
  Cat (Plus (Class not_space_at))
      (Cat (chr "@")
           (Cat (Plus (Class not_space_at))
                (Cat (chr ".") (Plus (Class not_space_at))))).

(** ** The validation block *)

(** Truthiness of [obj.k] for a property that is a string or missing:
    [undefined] and the empty string are falsy. *)
Definition truthy (v : option (list N)) : bool :=
  match v with
  | Some (_ :: _) => true
  | _ => false
  end.

Definition name_bad (obj : gmap (list N) (list N)) : bool :=
  negb (truthy (obj !! js "name")).

Definition email_bad (obj : gmap (list N) (list N)) : bool :=
  negb (truthy (obj !! js "email"))
  || negb (test email_re (default [] (obj !! js "email"))).

Definition phone_bad (obj : gmap (list N) (list N)) : bool :=
  negb (truthy (obj !! js "phone"))
  || (N.of_nat (length (default [] (obj !! js "phone"))) <? 6).

Definition message_bad (obj : gmap (list N) (list N)) : bool :=
  negb (truthy (obj !! js "message"))
  || (N.of_nat (length (default [] (obj !! js "message"))) <? 10).

Definition msg_name : list N := js "Nama wajib diisi.".
Definition msg_email : list N := js "Email tidak valid.".
Definition msg_phone : list N := js "Nomor telepon tampak terlalu pendek.".
Definition msg_message : list N := js "Pesan minimal 10 karakter.".

(** [errors.push(m)] under [if (c)]. *)
Definition push_if (c : bool) (m : list N) (errors : list (list N)) :
  list (list N) :=
  if c then errors ++ [m] else errors.

(** The four checks, in the order of the source. *)
Definition validate (obj : gmap (list N) (list N)) : list (list N) :=
  let errors := [] in
  let errors := push_if (name_bad obj) msg_name errors in
  let errors := push_if (email_bad obj) msg_email errors in
  let errors := push_if (phone_bad obj) msg_phone errors in
  let errors := push_if (message_bad obj) msg_message errors in
  errors.

(** ** The input-name normalizer *)

(** An [input] or [textarea] of the form: its [name], its current
    [value], the default value [form.reset()] restores, and its [id]
    (empty when it has none).  The model covers enabled text controls,
    the ones the script expects. *)
Record input : Type := Input {
  inp_name : list N;
  inp_value : list N;
  inp_default : list N;
  inp_id : list N
}.

Definition names : list (list N) :=
  [js "name"; js "email"; js "phone"; js "instagram"; js "message"].

Definition digit (d : N) : N := 48 + d.

Fixpoint uint_digits (u : Decimal.uint) : list N :=
  match u with
  | Decimal.Nil => []
  | Decimal.D0 u => digit 0 :: uint_digits u
  | Decimal.D1 u => digit 1 :: uint_digits u
  | Decimal.D2 u => digit 2 :: uint_digits u
  | Decimal.D3 u => digit 3 :: uint_digits u
  | Decimal.D4 u => digit 4 :: uint_digits u
  | Decimal.D5 u => digit 5 :: uint_digits u
  | Decimal.D6 u => digit 6 :: uint_digits u
  | Decimal.D7 u => digit 7 :: uint_digits u
  | Decimal.D8 u => digit 8 :: uint_digits u
  | Decimal.D9 u => digit 9 :: uint_digits u
  end.

(** The index [i] inside a template literal. *)
Definition index_string (i : nat) : list N :=
  match Nat.to_uint i with
  | Decimal.Nil => [digit 0]
  | u => uint_digits u
  end.

(** [names[i] || `field${i}`] *)
Definition fallback_name (i : nat) : list N :=
  if truthy (names !! i)
  then default [] (names !! i)
  else js "field" ++ index_string i.

(** [if (!inp.name) inp.name = names[i] || `field${i}`] *)
Definition name_input (i : nat) (inp : input) : input :=
  if negb (truthy (Some (inp_name inp)))
  then {| inp_name := fallback_name i;
          inp_value := inp_value inp;
          inp_default := inp_default inp;
          inp_id := inp_id inp |}
  else inp.

(** [inputs.forEach((inp, i) => ...)] *)
Definition normalize (inputs : list input) : list input :=
  imap name_input inputs.

(** ** Dates

    [new Date().toISOString()], following the ECMAScript definitions of
    [Day], [TimeWithinDay], [DayFromYear], [YearFromTime],
    [MonthFromTime] and [DateFromTime] on a time value in milliseconds
    since the epoch. *)

Open Scope Z_scope.

Definition msPerDay : Z := 86400000.

Definition Day (t : Z) : Z := t / msPerDay.
Definition TimeWithinDay (t : Z) : Z := t mod msPerDay.

Definition DayFromYear (y : Z) : Z :=
  365 * (y - 1970) + (y - 1969) / 4 - (y - 1901) / 100 + (y - 1601) / 400.

Definition DaysInYear (y : Z) : Z :=
  if negb (y mod 4 =? 0) then 365
  else if negb (y mod 100 =? 0) then 366
  else if negb (y mod 400 =? 0) then 365
  else 366.

(** The largest [y] with [DayFromYear y <= d]: an estimate from the
    400-year cycle of 146097 days, corrected by at most one year. *)
Definition YearFromDay (d : Z) : Z :=
  let y := 1970 + (400 * d) / 146097 in
  if d <? DayFromYear y then y - 1
  else if DayFromYear (y + 1) <=? d then y + 1
  else y.

Definition YearFromTime (t : Z) : Z := YearFromDay (Day t).

Definition InLeapYear (t : Z) : Z :=
  if DaysInYear (YearFromTime t) =? 366 then 1 else 0.

Definition DayWithinYear (t : Z) : Z :=
  Day t - DayFromYear (YearFromTime t).

Definition MonthFromTime (t : Z) : Z :=
  let d := DayWithinYear t in
  let l := InLeapYear t in
  if d <? 31 then 0
  else if d <? 59 + l then 1
  else if d <? 90 + l then 2
  else if d <? 120 + l then 3
  else if d <? 151 + l then 4
  else if d <? 181 + l then 5
  else if d <? 212 + l then 6
  else if d <? 243 + l then 7
  else if d <? 273 + l then 8
  else if d <? 304 + l then 9
  else if d <? 334 + l then 10
  else 11.

Definition DateFromTime (t : Z) : Z :=
  let d := DayWithinYear t in
  let l := InLeapYear t in
  match MonthFromTime t with
  | 0 => d + 1
  | 1 => d - 30
  | 2 => d - 58 - l
  | 3 => d - 89 - l
  | 4 => d - 119 - l
  | 5 => d - 150 - l
  | 6 => d - 180 - l
  | 7 => d - 211 - l
  | 8 => d - 242 - l
  | 9 => d - 272 - l
  | 10 => d - 303 - l
  | _ => d - 333 - l
  end.

Definition HourFromTime (t : Z) : Z := (t / 3600000) mod 24.
Definition MinFromTime (t : Z) : Z := (t / 60000) mod 60.
Definition SecFromTime (t : Z) : Z := (t / 1000) mod 60.
Definition msFromTime (t : Z) : Z := t mod 1000.

(** [n] in [w] decimal digits, most significant first. *)
Fixpoint pad (w : nat) (n : Z) : list N :=
  match w with
  | O => []
  | S w' => pad w' (n / 10) ++ [digit (Z.to_N (n mod 10))]
  end.

(** Four digits for the years 0 to 9999, a sign and six digits for the
    others (the expanded years of the date-time string format). *)
Definition year_string (y : Z) : list N :=
  if (0 <=? y) && (y <=? 9999) then pad 4 y
  else if 0 <=? y then js "+" ++ pad 6 y
  else js "-" ++ pad 6 (- y).

(** [YYYY-MM-DDTHH:mm:ss.sssZ] *)
Definition toISOString (t : Z) : list N :=
  year_string (YearFromTime t) ++ js "-" ++
  pad 2 (MonthFromTime t + 1) ++ js "-" ++
  pad 2 (DateFromTime t) ++ js "T" ++
  pad 2 (HourFromTime t) ++ js ":" ++
  pad 2 (MinFromTime t) ++ js ":" ++
  pad 2 (SecFromTime t) ++ js "." ++
  pad 3 (msFromTime t) ++ js "Z".

(** Time values a [Date] can hold (the range of [TimeClip]). *)
Definition valid_time (t : Z) : Prop :=
  -8640000000000000 <= t <= 8640000000000000.

Close Scope Z_scope.

(** ** Stored values

    [localStorage] holds strings.  The script only ever tests such a
    string for emptiness and hands it to [JSON.parse], so a stored
    string is modelled by what these two do with it: the empty string,
    a text that [JSON.parse] rejects with a [SyntaxError], or a text of
    the JSON value [v] (any text [JSON.parse] reads as [v], and the one
    [JSON.stringify] writes for it).  The properties of an object are
    kept without their order. *)

(** A number as [JSON.parse] reads it: a finite number other than
    [-0], given by the text [JSON.stringify] writes for it; [-0]; or an
    infinity, read from a literal beyond the range of the numbers (such
    as [1e400]). *)
Inductive number : Type :=
| Finite (literal : list N)
| NegZero
| Infinite (negative : bool).

#[warnings="-register-all"] Inductive json : Type :=
| JNull
| JBool (b : bool)
| JNumber (x : number)
| JString (s : list N)
| JArray (items : list json)
| JObject (fields : gmap (list N) json).

Inductive text : Type :=
| EmptyText
| Malformed (raw : list N)
| Serialized (v : json).

Inductive exn : Type :=
| SyntaxError
| TypeError
| SecurityError
| QuotaExceededError.

(** What the browser does with the storage during one submit event:
    it works, or the access to [localStorage] throws (storage disabled),
    or [setItem] throws (quota exceeded). *)
Inductive storage_mode : Type :=
| Works
| AccessDenied
| QuotaExceeded.

(** What the environment supplies to one run of the submit handler:
    the wall clock read by [new Date()] and the behaviour of the
    storage. *)
Record env : Type := Env {
  now : Z;
  storage : storage_mode
}.

(** The status region. *)
Record status : Type := Status {
  display : list N;
  background : list N;
  color : list N;
  textContent : list N
}.

(** What the handler reads and writes: the controls of the form, the
    toast, the storage of the origin, the cancelled flag of the event
    being handled, and the number of sparkle bursts started.  [named]
    holds the names and ids of the other elements the form exposes as
    properties of its own (its buttons, selects, fieldsets, outputs,
    objects and images); the script never writes them. *)
Record page : Type := Page {
  inputs : list input;
  toast : status;
  localStorage : gmap (list N) text;
  defaultPrevented : bool;
  bursts : nat;
  named : list (list N)
}.

(** ** Statements that may throw

    A computation runs on the page and either returns a value or throws;
    what it wrote before throwing stays written. *)
Definition M (A : Type) : Type := page -> (exn + A) * page.

Definition ret {A} (a : A) : M A := fun p => (inr a, p).

Definition throw {A} (e : exn) : M A := fun p => (inl e, p).

Definition bind {A B} (m : M A) (k : A -> M B) : M B :=
  fun p =>
    match m p with
    | (inr a, p') => k a p'
    | (inl e, p') => (inl e, p')
    end.

(** [try { m } catch (err) { h }] *)
Definition try_catch {A} (m : M A) (h : exn -> M A) : M A :=
  fun p =>
    match m p with
    | (inr a, p') => (inr a, p')
    | (inl e, p') => h e p'
    end.

Definition get_page : M page := fun p => (inr p, p).

Definition modify (f : page -> page) : M unit := fun p => (inr tt, f p).

Notation "x <- m ;; k" := (bind m (fun x => k))
  (at level 100, m at next level, right associativity).
Notation "m ;;; k" := (bind m (fun _ => k))
  (at level 100, right associativity).

(** [localStorage.getItem(k)]: [None] is [null]. *)
Definition getItem (e : env) (k : list N) : M (option text) :=
  match storage e with
  | AccessDenied => throw SecurityError
  | _ => p <- get_page ;; ret (localStorage p !! k)
  end.

(** [localStorage.setItem(k, v)] *)
Definition setItem (e : env) (k : list N) (v : text) : M unit :=
  match storage e with
  | AccessDenied => throw SecurityError
  | QuotaExceeded => throw QuotaExceededError
  | Works =>
      modify (fun p =>
        {| inputs := inputs p; toast := toast p;
           localStorage := <[k := v]> (localStorage p);
           defaultPrevented := defaultPrevented p; bursts := bursts p;
           named := named p |})
  end.

(** [raw || '[]'] *)
Definition or_empty_array (raw : option text) : text :=
  match raw with
  | None => Serialized (JArray [])
  | Some EmptyText => Serialized (JArray [])
  | Some t => t
  end.

Definition JSON_parse (t : text) : M json :=
  match t with
  | Serialized v => ret v
  | _ => throw SyntaxError
  end.

(** What [JSON.parse] reads back from the text [JSON.stringify] writes
    for [v]: an infinity is written as [null] and [-0] as [0], in
    arrays and objects as well; everything else is read back as it
    was. *)
Fixpoint reread (v : json) : json :=
  match v with
  | JNumber NegZero => JNumber (Finite (js "0"))
  | JNumber (Infinite _) => JNull
  | JArray items => JArray (map reread items)
  | JObject fields => JObject (reread <$> fields)
  | _ => v
  end.

Definition JSON_stringify (v : json) : text := Serialized (reread v).

(** [all.push(entry)]: only an array has [push]; on any other JSON value
    the call is a [TypeError]. *)
Definition push (all : json) (entry : json) : M json :=
  match all with
  | JArray items => ret (JArray (items ++ [entry]))
  | _ => throw TypeError
  end.

(** ** The field map *)

(** [obj[k] = v] on an object created by [{}]: the key [__proto__] hits
    the setter inherited from [Object.prototype], which ignores a string. *)
Definition obj_set (k v : list N) (obj : gmap (list N) (list N)) :
  gmap (list N) (list N) :=
  if decide (k = js "__proto__") then obj else <[k := v]> obj.

(** The first and the second half of a surrogate pair. *)
Definition is_high (c : N) : bool := (55296 <=? c) && (c <=? 56319).
Definition is_low (c : N) : bool := (56320 <=? c) && (c <=? 57343).

(** A string as a scalar value string: every surrogate that is not
    part of a pair becomes U+FFFD. *)
Fixpoint scalar (s : list N) : list N :=
  match s with
  | [] => []
  | c :: s' =>
      if is_high c
      then match s' with
           | d :: s'' =>
               if is_low d then c :: d :: scalar s''
               else 65533 :: scalar s'
           | [] => [65533]
           end
      else if is_low c then 65533 :: scalar s'
      else c :: scalar s'
  end.

(** [new FormData(form)]: one entry per control that has a name, in
    tree order; the name and the value of an entry are scalar value
    strings. *)
Definition FormData (form : list input) : list (list N * list N) :=
  map (fun inp => (scalar (inp_name inp), scalar (inp_value inp)))
      (filter (fun inp => inp_name inp <> []) form).

(** [for (const [k,v] of fdata.entries()) obj[k] = v.trim()] *)
Definition collect (fdata : list (list N * list N)) :
  gmap (list N) (list N) :=
  foldl (fun obj kv => obj_set (fst kv) (trim (snd kv)) obj) ∅ fdata.

(** [Object.assign(target, source)] on string-valued objects: every own
    property of [source] is assigned to [target]. *)
Definition Object_assign (target source : gmap (list N) (list N)) :
  gmap (list N) (list N) :=
  map_fold obj_set target source.

(** A string-valued object as a JSON value. *)
Definition record (o : gmap (list N) (list N)) : json :=
  JObject (JString <$> o).

Definition key : list N := js "codlab_contacts_v1".

(** [Object.assign({ submittedAt: new Date().toISOString() }, obj)] *)
Definition entry (e : env) (obj : gmap (list N) (list N)) :
  gmap (list N) (list N) :=
  Object_assign {[ js "submittedAt" := toISOString (now e) ]} obj.

(** The body of the [try] block. *)
Definition save (e : env) (obj : gmap (list N) (list N)) : M unit :=
  raw <- getItem e key ;;
  all <- JSON_parse (or_empty_array raw) ;;
  all' <- push all (record (entry e obj)) ;;
  setItem e key (JSON_stringify all').

(** The store's append: the [try] block with its empty [catch]. *)
Definition append (e : env) (obj : gmap (list N) (list N)) : M unit :=
  try_catch (save e obj) (fun _ => ret tt).

(** ** The submit handler *)

(** [e.preventDefault()] *)
Definition preventDefault : M unit :=
  modify (fun p =>
    {| inputs := inputs p; toast := toast p;
       localStorage := localStorage p;
       defaultPrevented := true; bursts := bursts p; named := named p |}).

Definition set_toast (f : status -> status) : M unit :=
  modify (fun p =>
    {| inputs := inputs p; toast := f (toast p);
       localStorage := localStorage p;
       defaultPrevented := defaultPrevented p; bursts := bursts p;
       named := named p |}).

Definition set_display (v : list N) : M unit :=
  set_toast (fun t =>
    {| display := v; background := background t;
       color := color t; textContent := textContent t |}).

Definition set_background (v : list N) : M unit :=
  set_toast (fun t =>
    {| display := display t; background := v;
       color := color t; textContent := textContent t |}).

Definition set_color (v : list N) : M unit :=
  set_toast (fun t =>
    {| display := display t; background := background t;
       color := v; textContent := textContent t |}).

Definition set_textContent (v : list N) : M unit :=
  set_toast (fun t =>
    {| display := display t; background := background t;
       color := color t; textContent := v |}).

(** [errors.join(sep)] *)
Fixpoint join (sep : list N) (l : list (list N)) : list N :=
  match l with
  | [] => []
  | [x] => x
  | x :: l' => x ++ sep ++ join sep l'
  end.

Definition thanks : list N :=
  js "Terima kasih! Pesanmu telah tersimpan. Tim kami akan menghubungi segera.".

(** A method of the form is hidden by an element of the form whose name
    or id is the name of the method: the named properties of a form
    come before the properties of its prototype, and [form.reset] is
    then that element. *)
Definition shadowed (method : list N) (p : page) : bool :=
  existsb (fun inp => bool_decide (inp_name inp = method)
                      || bool_decide (inp_id inp = method)) (inputs p)
  || bool_decide (method ∈ named p).

(** [form.reset()]: every control goes back to its default value. *)
Definition reset_input (inp : input) : input :=
  {| inp_name := inp_name inp;
     inp_value := inp_default inp;
     inp_default := inp_default inp;
     inp_id := inp_id inp |}.

(** The call throws when [form.reset] is a control and not the
    method. *)
Definition form_reset : M unit :=
  p <- get_page ;;
  if shadowed (js "reset") p
  then throw TypeError
  else
    modify (fun p =>
      {| inputs := map reset_input (inputs p); toast := toast p;
         localStorage := localStorage p;
         defaultPrevented := defaultPrevented p; bursts := bursts p;
         named := named p |}).

(** [sparkles(form)]: one more burst of decorative particles.  Its
    first call on the form is [container.appendChild(c)], which throws
    when [form.appendChild] is a control and not the method. *)
Definition sparkles : M unit :=
  p <- get_page ;;
  if shadowed (js "appendChild") p
  then throw TypeError
  else
    modify (fun p =>
      {| inputs := inputs p; toast := toast p;
         localStorage := localStorage p;
         defaultPrevented := defaultPrevented p; bursts := S (bursts p);
         named := named p |}).

(** The listener of the form's [submit] event. *)
Definition on_submit (e : env) : M unit :=
  preventDefault ;;;
  p <- get_page ;;
  let fdata := FormData (inputs p) in
  let obj := collect fdata in
  let errors := validate obj in
  if negb (length errors =? 0)%nat
  then
    set_display (js "block") ;;;
    set_background (js "#fff6f6") ;;;
    set_color (js "#8a1f1f") ;;;
    set_textContent (js "Gagal kirim: " ++ join (js " ") errors)
  else
    append e obj ;;;
    set_display (js "block") ;;;
    set_background (js "#f0fff4") ;;;
    set_color (js "#0b6b2f") ;;;
    set_textContent thanks ;;;
    form_reset ;;;
    sparkles.

(** ** Reading the store back *)

(** Appending the records of a session one after the other. *)
Fixpoint appends (rs : list (env * gmap (list N) (list N))) : M unit :=
  match rs with
  | [] => ret tt
  | (e, obj) :: rs' => append e obj ;;; appends rs'
  end.

(** The stored sequence, as a reader of the key gets it from
    [JSON.parse(localStorage.getItem(key) || '[]')]: [None] when the
    stored value does not parse or is not an array. *)
Definition stored (p : page) : option (list json) :=
  match or_empty_array (localStorage p !! key) with
  | Serialized (JArray items) => Some items
  | _ => None
  end.

(** The [submittedAt] of a stored record. *)
Definition submittedAt (r : json) : option (list N) :=
  match r with
  | JObject fields =>
      match fields !! js "submittedAt" with
      | Some (JString s) => Some s
      | _ => None
      end
  | _ => None
  end.

(** ** The instant a timestamp denotes

    The date-time string format read back: the inverse of
    [toISOString], used to compare the [submittedAt] of stored records
    in time. *)

Open Scope Z_scope.

Definition digit_value (c : N) : option Z :=
  if ((48 <=? c) && (c <=? 57))%N then Some (Z.of_N (c - 48)) else None.

Fixpoint read_digits (w : nat) (acc : Z) (s : list N) : option (Z * list N) :=
  match w with
  | O => Some (acc, s)
  | S w' =>
      match s with
      | c :: s' => d ← digit_value c; read_digits w' (10 * acc + d) s'
      | [] => None
      end
  end.

Definition expect (a : ascii) (s : list N) : option (list N) :=
  match s with
  | c :: s' => if (c =? N_of_ascii a)%N then Some s' else None
  | [] => None
  end.

Definition read_year (s : list N) : option (Z * list N) :=
  match expect "+" s, expect "-" s with
  | Some s', _ => read_digits 6 0 s'
  | None, Some s' => '(y, r) ← read_digits 6 0 s'; Some (- y, r)
  | None, None => read_digits 4 0 s
  end.

(** Days from the start of the year to the start of month [m]
    (0 = January), [l] being 1 in a leap year. *)
Definition month_start (m l : Z) : Z :=
  match m with
  | 0 => 0
  | 1 => 31
  | 2 => 59 + l
  | 3 => 90 + l
  | 4 => 120 + l
  | 5 => 151 + l
  | 6 => 181 + l
  | 7 => 212 + l
  | 8 => 243 + l
  | 9 => 273 + l
  | 10 => 304 + l
  | _ => 334 + l
  end.

(** [MakeDay(year, month, date)] for a month in range. *)
Definition MakeDay (y m d : Z) : Z :=
  DayFromYear y
  + month_start m (if DaysInYear y =? 366 then 1 else 0)
  + d - 1.

Definition MakeTime (h mi s ms : Z) : Z :=
  h * 3600000 + mi * 60000 + s * 1000 + ms.

Definition MakeDate (day time : Z) : Z := day * msPerDay + time.

Definition instant (s : list N) : option Z :=
  '(y, s) ← read_year s;
  s ← expect "-" s;
  '(mo, s) ← read_digits 2 0 s;
  s ← expect "-" s;
  '(d, s) ← read_digits 2 0 s;
  s ← expect "T" s;
  '(h, s) ← read_digits 2 0 s;
  s ← expect ":" s;
  '(mi, s) ← read_digits 2 0 s;
  s ← expect ":" s;
  '(sec, s) ← read_digits 2 0 s;
  s ← expect "." s;
  '(ms, s) ← read_digits 3 0 s;
  s ← expect "Z" s;
  match s with
  | [] => Some (MakeDate (MakeDay y (mo - 1) d) (MakeTime h mi sec ms))
  | _ => None
  end.

(** Each record of the list was submitted no earlier than the one
    before it. *)
Fixpoint chronological (l : list json) : bool :=
  match l with
  | a :: (b :: _) as l' =>
      match submittedAt a ≫= instant, submittedAt b ≫= instant with
      | Some ta, Some tb => (ta <=? tb) && chronological l'
      | _, _ => false
      end
  | _ => true
  end.

(** The wall clock never runs backwards between the appends. *)
Fixpoint clock_non_decreasing (ts : list Z) : bool :=
  match ts with
  | a :: (b :: _) as ts' => (a <=? b) && clock_non_decreasing ts'
  | _ => true
  end.

Close Scope Z_scope.

(** ** Vocabulary of the statements *)

(** The checks of the validation block, in the order of the source. *)
Definition checks :
  list ((gmap (list N) (list N) -> bool) * list N) :=
  [(name_bad, msg_name); (email_bad, msg_email);
   (phone_bad, msg_phone); (message_bad, msg_message)].

(** The instagram field set to a value, or removed. *)
Definition with_instagram (ig : option (list N))
  (obj : gmap (list N) (list N)) : gmap (list N) (list N) :=
  match ig with
  | Some v => <[js "instagram" := v]> obj
  | None => delete (js "instagram") obj
  end.

(** The value of the last entry named [k]: the one [collect] keeps. *)
Fixpoint last_value (k : list N) (fdata : list (list N * list N)) :
  option (list N) :=
  match fdata with
  | [] => None
  | (k', v) :: fdata' =>
      match last_value k fdata' with
      | Some v' => Some v'
      | None => if decide (k' = k) then Some v else None
      end
  end.

Ltac invert H := inversion H; subst; clear H.

Ltac js_neq := let H := fresh in intros H; vm_compute in H; discriminate H.

(** ** The scenarios of the specification *)

(** The field map of scenario A. *)
Definition scenarioA : gmap (list N) (list N) :=
  <[js "name" := js "Ana"]>
  (<[js "email" := js "ana@mail.com"]>
  (<[js "phone" := js "08123456"]>
  (<[js "message" := js "Hello, I am interested in the course."]> ∅))).

(** The field map of scenario B. *)
Definition scenarioB : gmap (list N) (list N) :=
  <[js "name" := js ""]>
  (<[js "email" := js "bad"]>
  (<[js "phone" := js "1"]>
  (<[js "message" := js "short"]> ∅))).

(** The form data of scenario B. *)
Definition fdataB : list (list N * list N) :=
  [(js "name", js ""); (js "email", js "bad");
   (js "phone", js "1"); (js "message", js "short")].

(** A form like the one of [kontak.html] with an extra control: five
    unnamed controls, one that already has a name and one more unnamed
    control. *)
Definition sample_form : list input :=
  [Input [] (js "Ana") [] []; Input [] (js "ana@mail.com") [] [];
   Input [] (js "08123456") [] []; Input [] (js "@ana") [] [];
   Input [] (js "Hello, I am interested in the course.") [] [];
   Input (js "topic") (js "web") (js "web") []; Input [] (js "x") [] []].

(** The page with another value under the storage. *)
Definition with_localStorage (ls : gmap (list N) text) (p : page) : page :=
  {| inputs := inputs p; toast := toast p; localStorage := ls;
     defaultPrevented := defaultPrevented p; bursts := bursts p;
     named := named p |}.

(** The storage after a successful append to the sequence [old]: the
    items of [old] as they are read back once written, and the new
    entry, an object of strings, after them. *)
Definition appended (e : env) (obj : gmap (list N) (list N))
  (old : list json) (p : page) : page :=
  with_localStorage
    (<[key := Serialized
                (JArray (map reread old ++ [JObject (JString <$> entry e obj)]))]>
       (localStorage p)) p.

(** A page with nothing stored, and a clock and storage that work. *)
Definition page0 : page :=
  {| inputs := []; toast := Status (js "none") [] [] [];
     localStorage := ∅; defaultPrevented := false; bursts := 0;
     named := [] |}.

Definition env0 : env := {| now := 0; storage := Works |}.

(** A page whose stored value is not JSON. *)
Definition page_corrupt : page :=
  with_localStorage {[ key := Malformed (js "oops") ]} page0.


(** The storage works for this event. *)
Definition works (e : env) : bool :=
  match storage e with
  | Works => true
  | _ => false
  end.

(** The record an append writes. *)
Definition written (x : env * gmap (list N) (list N)) : json :=
  record (entry (fst x) (snd x)).

Definition env1 : env := {| now := 1; storage := Works |}.

(** The storage is full. *)
Definition env_full : env := {| now := 0; storage := QuotaExceeded |}.

(** The toast after a rejected submission. *)
Definition error_status (errors : list (list N)) : status :=
  {| display := js "block"; background := js "#fff6f6";
     color := js "#8a1f1f";
     textContent := js "Gagal kirim: " ++ join (js " ") errors |}.

(** The toast after an accepted submission. *)
Definition success_status : status :=
  {| display := js "block"; background := js "#f0fff4";
     color := js "#0b6b2f"; textContent := thanks |}.

(** The page after a rejected submission. *)
Definition rejected (errors : list (list N)) (p : page) : page :=
  {| inputs := inputs p; toast := error_status errors;
     localStorage := localStorage p;
     defaultPrevented := true; bursts := bursts p; named := named p |}.

(** The page after an accepted submission that left [ls] in the
    storage. *)
Definition accepted (ls : gmap (list N) text) (p : page) : page :=
  {| inputs := map reset_input (inputs p); toast := success_status;
     localStorage := ls;
     defaultPrevented := true; bursts := S (bursts p); named := named p |}.

(** The field map the handler builds from the page. *)
Definition obj_of (p : page) : gmap (list N) (list N) :=
  collect (FormData (inputs p)).

(** The form of scenario A, filled in. *)
Definition formA : list input :=
  [Input (js "name") (js "  Ana ") [] []; Input (js "email") (js "ana@mail.com") [] [];
   Input (js "phone") (js "08123456") [] []; Input (js "instagram") (js "@ana") [] [];
   Input (js "message") (js "Hello, I am interested in the course.") [] []].

(** The form of scenario B, filled in. *)
Definition formB : list input :=
  [Input (js "name") (js "") [] []; Input (js "email") (js "bad") [] [];
   Input (js "phone") (js "1") [] []; Input (js "instagram") (js "") [] [];
   Input (js "message") (js "short") [] []].


Definition with_inputs (form : list input) (p : page) : page :=
  {| inputs := form; toast := toast p; localStorage := localStorage p;
     defaultPrevented := defaultPrevented p; bursts := bursts p;
     named := named p |}.

(** Two validated records that bring a [submittedAt] of their own, the
    first one later than the second. *)
Definition recordLate : gmap (list N) (list N) :=
  <[js "submittedAt" := js "2030-01-01T00:00:00.000Z"]> scenarioA.

Definition recordEarly : gmap (list N) (list N) :=
  <[js "submittedAt" := js "2020-01-01T00:00:00.000Z"]> scenarioA.

(** ** A session on the form *)

(** The user types: the i-th control gets the i-th value of the list,
    the controls beyond the list keep theirs. *)
Definition fill (values : list (list N)) (form : list input) : list input :=
  imap (fun i inp =>
          match values !! i with
          | Some v => {| inp_name := inp_name inp; inp_value := v;
                         inp_default := inp_default inp;
                         inp_id := inp_id inp |}
          | None => inp
          end) form.

Definition typing (values : list (list N)) : M unit :=
  modify (fun p => with_inputs (fill values (inputs p)) p).

(** The user fills the form in and submits it, again and again.  An
    exception a run of the listener throws is reported by the browser
    and does not keep the next submit event from being handled. *)
Fixpoint session (steps : list (list (list N) * env)) : M unit :=
  match steps with
  | [] => ret tt
  | (values, e) :: steps' =>
      fun p => session steps' (snd ((typing values ;;; on_submit e) p))
  end.

(** A form of five controls with no names and empty defaults, as the
    script expects it, filled in with scenario A. *)
Definition page_kontak : page :=
  with_inputs
    (normalize
       [Input [] (js "Ana") [] []; Input [] (js "ana@mail.com") [] [];
        Input [] (js "08123456") [] []; Input [] (js "@ana") [] [];
        Input [] (js "Hello, I am interested in the course.") [] []])
    page0.

Definition valuesA : list (list N) :=
  [js "Ana"; js "ana@mail.com"; js "08123456"; js "@ana";
   js "Hello, I am interested in the course."].

Definition valuesB : list (list N) :=
  [js ""; js "bad"; js "1"; js ""; js "short"].

(** The page after the user typed [values] and submitted. *)
Definition submitted (values : list (list N)) (e : env) (p : page) : page :=
  snd (on_submit e (with_inputs (fill values (inputs p)) p)).

(** Another script of the origin keeps a value under a key of its own. *)
Definition page_shared : page :=
  with_localStorage {[ js "theme" := Malformed (js "dark") ]} page_kontak.


(** * The other blocks of the script *)

(** ** Class lists

    The token set behind [el.classList]: ordered, each token once. *)

(** [classList.add(token)] *)
Definition classList_add (token : list N) (l : list (list N)) :
  list (list N) :=
  if decide (token ∈ l) then l else l ++ [token].

(** [classList.remove(token)] *)
Definition classList_remove (token : list N) (l : list (list N)) :
  list (list N) :=
  filter (fun c => c <> token) l.

(** [classList.toggle(token, force)] *)
Definition classList_toggle (token : list N) (force : bool)
  (l : list (list N)) : list (list N) :=
  if force then classList_add token l else classList_remove token l.

(** ** The active link of the navigation *)

Module ActiveLink.

(** A link of the navigation: its [href] attribute, if it has one, and
    its classes. *)
Record link : Type := Link {
  href : option (list N);
  classList : list (list N)
}.

(** [s.split('/')] *)
Fixpoint split (s : list N) : list (list N) :=
  match s with
  | [] => [[]]
  | c :: s' =>
      if (c =? 47)%N then [] :: split s'
      else match split s' with
           | x :: xs => (c :: x) :: xs
           | [] => [[c]]
           end
  end.

(** [location.pathname.split('/').pop() || 'index.html'] *)
Definition current (pathname : list N) : list N :=
  if truthy (last (split pathname))
  then default [] (last (split pathname))
  else js "index.html".

(** [(a.getAttribute('href') || '').split('/').pop()] *)
Definition linkFile (a : link) : option (list N) :=
  last (split (if truthy (href a) then default [] (href a) else [])).

(** The condition of the [if]. *)
Definition is_active (cur : list N) (file : option (list N)) : bool :=
  bool_decide (file = Some cur)
  || (bool_decide (cur = [])
      && (bool_decide (file = Some (js "index.html"))
          || bool_decide (file = Some (js "./")))).

(** The body of [navLinks.forEach]. *)
Definition mark (pathname : list N) (a : link) : link :=
  if is_active (current pathname) (linkFile a)
  then {| href := href a;
          classList := classList_add (js "active-link") (classList a) |}
  else {| href := href a;
          classList := classList_remove (js "active-link") (classList a) |}.

(** The block, on the links of the navigation and the number of style
    elements in the head: it returns at once when there is no link, and
    appends one style element otherwise. *)
Definition highlight (pathname : list N) (nav : list link * nat) :
  list link * nat :=
  if (length (fst nav) =? 0)%nat then nav
  else (map (mark pathname) (fst nav), S (snd nav)).

End ActiveLink.

(** ** The hamburger button *)

Module Hamburger.

(** What the click listener reads and writes: two attributes of the
    button and the classes of the navigation. *)
Record state : Type := State {
  aria_expanded : option (list N);
  aria_label : option (list N);
  nav : list (list N)
}.

(** The button as the block creates it, beside a navigation with the
    given classes. *)
Definition created (classes : list (list N)) : state :=
  {| aria_expanded := Some (js "false");
     aria_label := Some (js "Buka menu");
     nav := classes |}.

(** The click listener of the button. *)
Definition click (s : state) : state :=
  let isOpen := bool_decide (aria_expanded s = Some (js "true")) in
  {| aria_expanded := Some (if negb isOpen then js "true" else js "false");
     aria_label := Some (if isOpen then js "Buka menu" else js "Tutup menu");
     nav := classList_toggle (js "open") (negb isOpen) (nav s) |}.

End Hamburger.

(** ** The testimonial carousel *)

Module Carousel.

(** The variables of the block: the number of cards, the index of the
    card shown, the index the last transform of the track was computed
    for (its length is [-(w + 18) * idx] for the measured width [w] of
    that card, a floating-point number that is not modelled), the
    handle in [autoplay], the live intervals of the block and the next
    handle [setInterval] gives. *)
Record state : Type := State {
  total : Z;
  idx : Z;
  shift : option Z;
  autoplay : nat;
  intervals : gset nat;
  next_handle : nat
}.

(** [go(i)]: [%] is the remainder of the truncated division; reading
    [cards[idx]] outside the array gives [undefined], and the call of
    [getBoundingClientRect] on it throws. *)
Definition go (i : Z) (s : state) : (exn + unit) * state :=
  let idx' := Z.rem (i + total s) (total s) in
  if (0 <=? idx')%Z && (idx' <? total s)%Z
  then (inr tt,
        {| total := total s; idx := idx'; shift := Some idx';
           autoplay := autoplay s; intervals := intervals s;
           next_handle := next_handle s |})
  else (inl TypeError,
        {| total := total s; idx := idx'; shift := shift s;
           autoplay := autoplay s; intervals := intervals s;
           next_handle := next_handle s |}).

Inductive event : Type :=
| Tick (handle : nat)
| MouseEnter
| MouseLeave
| Click.

(** The listeners of the block, and the callback of a live interval. *)
Definition handle (ev : event) (s : state) : (exn + unit) * state :=
  match ev with
  | Tick h =>
      if decide (h ∈ intervals s) then go (idx s + 1) s else (inr tt, s)
  | MouseEnter =>
      (inr tt,
       {| total := total s; idx := idx s; shift := shift s;
          autoplay := autoplay s;
          intervals := intervals s ∖ {[autoplay s]};
          next_handle := next_handle s |})
  | MouseLeave =>
      (inr tt,
       {| total := total s; idx := idx s; shift := shift s;
          autoplay := next_handle s;
          intervals := intervals s ∪ {[next_handle s]};
          next_handle := S (next_handle s) |})
  | Click => go (idx s + 1) s
  end.

(** The events of a visit, one after the other; an exception of one
    listener does not keep the next event from being handled. *)
Fixpoint run (evs : list event) (s : state) : state :=
  match evs with
  | [] => s
  | ev :: evs' => run evs' (snd (handle ev s))
  end.

(** The state the block sets up for [n] cards: the first card, the
    track not moved yet, and the first interval running. *)
Definition start (n : Z) (h : nat) : state :=
  {| total := n; idx := 0; shift := None; autoplay := h;
     intervals := {[h]}; next_handle := S h |}.

End Carousel.

(** ** Lazy images *)

Module Lazy.

(** An image: its [src] and [data-src] attributes, and whether the
    observer of the block watches it. *)
Record img : Type := Img {
  src : option (list N);
  data_src : option (list N);
  observed : bool
}.

(** [io.observe(img)] *)
Definition observe (im : img) : img :=
  {| src := src im; data_src := data_src im; observed := true |}.

(** The block: with [IntersectionObserver] it watches the images that
    have a non-empty [data-src]; without, it copies [data-src] to
    [src] at once. *)
Definition init (hasIO : bool) (imgs : list img) : list img :=
  if hasIO
  then map (fun im => if truthy (data_src im) then observe im else im) imgs
  else map (fun im => if truthy (data_src im)
                      then {| src := data_src im; data_src := data_src im;
                              observed := observed im |}
                      else im) imgs.

(** What the callback does to the target of an intersecting entry. *)
Definition load (im : img) : img :=
  let im' := if truthy (data_src im)
             then {| src := data_src im; data_src := None;
                     observed := observed im |}
             else im in
  {| src := src im'; data_src := data_src im'; observed := false |}.

(** The callback of the observer, on entries given by the position of
    their target and [isIntersecting]. *)
Definition callback (entries : list (nat * bool)) (imgs : list img) :
  list img :=
  foldl (fun (imgs : list img) (ent : nat * bool) =>
           if snd ent then alter load (fst ent) imgs else imgs)
        imgs entries.

End Lazy.

(** ** Reveal on scroll *)

Module Reveal.

(** A target: its classes, and whether the observer watches it. *)
Record target : Type := Target {
  classList : list (list N);
  observed : bool
}.

(** [initReveal], on the targets found. *)
Definition initReveal (prefersReduced hasIO : bool) (targets : list target) :
  list target :=
  let targets :=
    map (fun t => {| classList := classList_add (js "reveal") (classList t);
                     observed := observed t |}) targets in
  if hasIO && negb prefersReduced
  then map (fun t => {| classList := classList t; observed := true |}) targets
  else map (fun t => {| classList := classList_add (js "in") (classList t);
                        observed := observed t |}) targets.

(** What the callback does to the target of an intersecting entry. *)
Definition reveal (t : target) : target :=
  {| classList := classList_add (js "in") (classList t); observed := false |}.

Definition callback (entries : list (nat * bool)) (targets : list target) :
  list target :=
  foldl (fun (ts : list target) (ent : nat * bool) =>
           if snd ent then alter reveal (fst ent) ts else ts)
        targets entries.

End Reveal.

(** The links of a navigation, seen from the address of a directory. *)
Definition nav_links : list ActiveLink.link :=
  [ActiveLink.Link (Some (js "./")) [js "active-link"];
   ActiveLink.Link (Some (js "index.html")) [];
   ActiveLink.Link (Some (js "pages/kontak.html")) [js "btn"];
   ActiveLink.Link None []].

(** The callback of an interval, as opposed to an event of the user. *)
Definition is_tick (ev : Carousel.event) : bool :=
  match ev with
  | Carousel.Tick _ => true
  | _ => false
  end.

(** The cards are [n] in number and the one shown is one of them. *)
Definition in_range (n : Z) (s : Carousel.state) : Prop :=
  Carousel.total s = n /\ (0 <= Carousel.idx s < n)%Z.

(** The handles of the block were all given out before the next one. *)
Definition handles_fresh (s : Carousel.state) : Prop :=
  (Carousel.autoplay s < Carousel.next_handle s)%nat /\
  forall h, h ∈ Carousel.intervals s -> (h < Carousel.next_handle s)%nat.

(** Some batch of entries reports the target at position [i] as
    intersecting. *)
Definition hit (i : nat) (batches : list (list (nat * bool))) : bool :=
  existsb (existsb (fun ent : nat * bool => (fst ent =? i)%nat && snd ent))
          batches.

(** The callback of the lazy-image observer, run on one batch of
    entries after the other. *)
Definition lazy_callbacks (batches : list (list (nat * bool)))
  (imgs : list Lazy.img) : list Lazy.img :=
  foldl (fun imgs entries => Lazy.callback entries imgs) imgs batches.

(** The callback of the reveal observer, run on one batch of entries
    after the other. *)
Definition reveal_callbacks (batches : list (list (nat * bool)))
  (targets : list Reveal.target) : list Reveal.target :=
  foldl (fun ts entries => Reveal.callback entries ts) targets batches.

(** Three images: one to load lazily, one with an ordinary [src], one
    with an empty [data-src]. *)
Definition page_imgs : list Lazy.img :=
  [Lazy.Img None (Some (js "a.png")) false;
   Lazy.Img (Some (js "b.png")) None false;
   Lazy.Img None (Some []) false].

(** ** Values that are written back as they were read *)

(** The nesting depth of a value. *)
Fixpoint depth (v : json) : nat :=
  match v with
  | JArray items => S (foldr (fun x acc => max (depth x) acc) 0%nat items)
  | JObject fields =>
      S (map_fold (fun _ x acc => max (depth x) acc) 0%nat fields)
  | _ => 0%nat
  end.

(** A value that holds no infinite number and no negative zero, at any
    depth. *)
#[warnings="-register-all"] Inductive plain : json -> Prop :=
| plain_null : plain JNull
| plain_bool (b : bool) : plain (JBool b)
| plain_number (literal : list N) : plain (JNumber (Finite literal))
| plain_string (s : list N) : plain (JString s)
| plain_array (items : list json) :
    Forall plain items -> plain (JArray items)
| plain_object (fields : gmap (list N) json) :
    (forall (k : list N) (x : json), fields !! k = Some x -> plain x) ->
    plain (JObject fields).

(** The items stored before, after the appends of [news]: once an
    append has written the sequence back they are what is read back
    from the written text. *)
Definition kept {A} (news : list A) (old : list json) : list json :=
  match news with
  | [] => old
  | _ :: _ => map reread old
  end.


(** The page a valid submission leaves when [form.reset] is not the
    method: the success message is shown and [ls] is in the storage,
    the controls keep their values and no sparkles start. *)
Definition shown (ls : gmap (list N) text) (p : page) : page :=
  {| inputs := inputs p; toast := success_status;
     localStorage := ls;
     defaultPrevented := true; bursts := bursts p; named := named p |}.

(** The page a valid submission leaves when the form is reset and
    [form.appendChild] is not the method: no sparkles start. *)
Definition cleared (ls : gmap (list N) text) (p : page) : page :=
  {| inputs := map reset_input (inputs p); toast := success_status;
     localStorage := ls;
     defaultPrevented := true; bursts := bursts p; named := named p |}.

(** A form with a control named [reset], filled in with scenario A. *)
Definition form_reset_named : list input :=
  [Input (js "name") (js "Ana") [] [];
   Input (js "email") (js "ana@mail.com") [] [];
   Input (js "phone") (js "08123456") [] [];
   Input (js "message") (js "Hello, I am interested in the course.") [] [];
   Input (js "reset") (js "") [] []].

(** The form exposes an element under the name [method]: a control
    whose name or id is [method], or another of its named elements. *)
Definition exposes (method : list N) (p : page) : Prop :=
  (exists inp : input,
      inp ∈ inputs p /\ (inp_name inp = method \/ inp_id inp = method)) \/
  method ∈ named p.


(** A form whose submit button has the id [reset]. *)
Definition page_reset_button : page :=
  {| inputs := formA; toast := Status (js "none") [] [] [];
     localStorage := ∅; defaultPrevented := false; bursts := 0;
     named := [js "reset"] |}.


(** A control whose value holds a high surrogate with nothing after
    it. *)
Definition form_surrogate : list input :=
  [Input (js "name") (js "Ana") [] [];
   Input (js "email") (js "ana@mail.com") [] [];
   Input (js "phone") (js "08123456") [] [];
   Input (js "message") (js "Hello, I am interested in the course.") [] [];
   Input (js "instagram") (js "@ana" ++ [55357]) [] []].

(** * Properties *)

(** ** Strings and trimming *)

(** What [trimStart] returns is empty or starts with a character that
    is not white space. *)
Lemma trimStart_head (s : list N) :
  match trimStart s with
  | [] => True
  | c :: _ => is_space c = false
  end.
Proof.
  induction s as [|c s IH]; simpl; [exact I |].
  destruct (is_space c) eqn:E; [exact IH | exact E].
Qed.

Lemma trimStart_fixed (s : list N) :
  match s with
  | [] => True
  | c :: _ => is_space c = false
  end -> trimStart s = s.
Proof.
  destruct s as [|c s]; simpl; [reflexivity |].
  intros ->. reflexivity.
Qed.

Lemma trimStart_idem (s : list N) : trimStart (trimStart s) = trimStart s.
Proof. apply trimStart_fixed, trimStart_head. Qed.

Lemma trim_nil : trim [] = [].
Proof. reflexivity. Qed.

Lemma trim_nonempty (s : list N) : trim s <> [] -> s <> [].
Proof. intros H ->. apply H, trim_nil. Qed.

Lemma trimEnd_idem (s : list N) : trimEnd (trimEnd s) = trimEnd s.
Proof.
  unfold trimEnd. rewrite rev_involutive, trimStart_idem. reflexivity.
Qed.

Lemma trimStart_snoc (a : list N) (c : N) :
  is_space c = false -> exists x, trimStart (a ++ [c]) = x ++ [c].
Proof.
  intros Hc. induction a as [|d a IH]; simpl.
  - rewrite Hc. exists []. reflexivity.
  - destruct (is_space d); [exact IH |].
    exists (d :: a). reflexivity.
Qed.

(** Trimming the end keeps a first character that is not white space. *)
Lemma trimEnd_head (c : N) (s : list N) :
  is_space c = false -> exists s', trimEnd (c :: s) = c :: s'.
Proof.
  intros Hc. unfold trimEnd. simpl.
  destruct (trimStart_snoc (rev s) c Hc) as [x ->].
  exists (rev x). rewrite rev_app_distr. reflexivity.
Qed.

Lemma trim_idem (s : list N) : trim (trim s) = trim s.
Proof.
  unfold trim.
  pose proof (trimStart_head s) as H.
  destruct (trimStart s) as [|c u]; [reflexivity |].
  destruct (trimEnd_head c u H) as [s' E].
  rewrite E. rewrite (trimStart_fixed (c :: s')) by exact H.
  rewrite <- E. apply trimEnd_idem.
Qed.

(** [trimStart] drops a prefix of white space. *)
Lemma trimStart_split (s : list N) :
  exists pre, s = pre ++ trimStart s /\ forallb is_space pre = true.
Proof.
  induction s as [|c s [pre [E H]]]; simpl.
  - exists []. split; reflexivity.
  - destruct (is_space c) eqn:Ec.
    + exists (c :: pre). simpl. rewrite Ec, H.
      split; [congruence | reflexivity].
    + exists []. split; reflexivity.
Qed.

(** [trimEnd] drops a suffix of white space. *)
Lemma trimEnd_split (s : list N) :
  exists post, s = trimEnd s ++ post /\ forallb is_space post = true.
Proof.
  destruct (trimStart_split (rev s)) as [pre [E H]].
  exists (rev pre). split.
  - unfold trimEnd. rewrite <- rev_app_distr, <- E, rev_involutive.
    reflexivity.
  - apply forallb_forall. intros c Hc. apply in_rev in Hc.
    rewrite forallb_forall in H. apply H. exact Hc.
Qed.

(** [trim] is what is left of the string between a prefix and a suffix
    of white space, and neither starts nor ends with white space. *)
Lemma trim_spec (s : list N) :
  (exists pre post,
      s = pre ++ trim s ++ post /\
      forallb is_space pre = true /\ forallb is_space post = true) /\
  match trim s with [] => True | c :: _ => is_space c = false end /\
  match rev (trim s) with [] => True | c :: _ => is_space c = false end.
Proof.
  unfold trim. split; [|split].
  - destruct (trimStart_split s) as [pre [E1 H1]].
    destruct (trimEnd_split (trimStart s)) as [post [E2 H2]].
    exists pre, post. split; [|split; assumption].
    rewrite <- E2. exact E1.
  - pose proof (trimStart_head s) as H.
    destruct (trimStart s) as [|c u]; [exact I |].
    destruct (trimEnd_head c u H) as [s' ->]. exact H.
  - unfold trimEnd. rewrite rev_involutive. apply trimStart_head.
Qed.

(** ** Regular expressions: [test] decides [matches] *)

Lemma matches_Cat_inv (r1 r2 : regex) (s : list N) :
  matches (Cat r1 r2) s ->
  exists s1 s2, s = s1 ++ s2 /\ matches r1 s1 /\ matches r2 s2.
Proof.
  intros H. invert H.
  eexists _, _. split; [reflexivity | split; assumption].
Qed.

Lemma matches_Alt_inv (r1 r2 : regex) (s : list N) :
  matches (Alt r1 r2) s -> matches r1 s \/ matches r2 s.
Proof. intros H. invert H; auto. Qed.

Lemma matches_Plus_inv (r : regex) (s : list N) :
  matches (Plus r) s ->
  matches r s \/
  exists s1 s2, s = s1 ++ s2 /\ matches r s1 /\ matches (Plus r) s2.
Proof.
  intros H. invert H; [left; assumption |].
  right. eexists _, _. split; [reflexivity | split; assumption].
Qed.

Lemma matches_Class_inv (p : N -> bool) (s : list N) :
  matches (Class p) s -> exists c, s = [c] /\ p c = true.
Proof. intros H. invert H. eauto. Qed.

Lemma nullable_spec (r : regex) : nullable r = true <-> matches r [].
Proof.
  induction r as [| |p|r1 IH1 r2 IH2|r1 IH1 r2 IH2|r IH]; simpl.
  - split; [discriminate | intros H; invert H].
  - split; [intros _; constructor | reflexivity].
  - split; [discriminate | intros H; invert H].
  - rewrite orb_true_iff, IH1, IH2. split.
    + intros [H|H]; [apply M_AltL | apply M_AltR]; exact H.
    + apply matches_Alt_inv.
  - rewrite andb_true_iff, IH1, IH2. split.
    + intros [H1 H2]. apply (M_Cat r1 r2 [] []); assumption.
    + intros H. apply matches_Cat_inv in H as [s1 [s2 [E [H1 H2]]]].
      symmetry in E. apply app_eq_nil in E as [-> ->]. split; assumption.
  - rewrite IH. split.
    + apply M_Plus1.
    + intros H. apply matches_Plus_inv in H as [H|[s1 [s2 [E [H1 H2]]]]].
      * exact H.
      * symmetry in E. apply app_eq_nil in E as [-> _]. exact H1.
Qed.

(** A word of [r+] that starts with [c] is a word of [r] that starts
    with [c], possibly followed by a word of [r+]. *)
Lemma matches_Plus_cons (r : regex) (c : N) (s : list N) :
  matches (Plus r) (c :: s) ->
  matches r (c :: s) \/
  exists s1 s2, s = s1 ++ s2 /\ matches r (c :: s1) /\ matches (Plus r) s2.
Proof.
  intros H. remember (Plus r) as R eqn:ER. remember (c :: s) as w eqn:Ew.
  revert s Ew.
  induction H as [| | | | |r' w H|r' s1 s2 H1 _ H2 IH2]; intros u Ew;
    try discriminate; injection ER as ->.
  - subst w. left. exact H.
  - destruct s1 as [|d s1]; simpl in Ew.
    + subst s2. apply IH2; reflexivity.
    + injection Ew as -> <-. right. exists s1, s2. auto.
Qed.

Lemma deriv_spec (c : N) (r : regex) (s : list N) :
  matches (deriv c r) s <-> matches r (c :: s).
Proof.
  revert s.
  induction r as [| |p|r1 IH1 r2 IH2|r1 IH1 r2 IH2|r IH]; intros s; simpl.
  - split; intros H; invert H.
  - split; intros H; invert H.
  - destruct (p c) eqn:Ep; split; intros H; invert H.
    + constructor. exact Ep.
    + constructor.
    + congruence.
  - split; intros H; apply matches_Alt_inv in H as [H|H].
    + apply M_AltL, IH1. assumption.
    + apply M_AltR, IH2. assumption.
    + apply M_AltL, IH1. assumption.
    + apply M_AltR, IH2. assumption.
  - assert (Hcat : forall s, matches (Cat (deriv c r1) r2) s ->
                             matches (Cat r1 r2) (c :: s)).
    { intros s0 H. apply matches_Cat_inv in H as [s1 [s2 [-> [H1 H2]]]].
      apply IH1 in H1. apply (M_Cat r1 r2 (c :: s1) s2); assumption. }
    split.
    + destruct (nullable r1) eqn:En; intros H.
      * apply matches_Alt_inv in H as [H|H]; [apply Hcat; assumption |].
        apply (M_Cat r1 r2 [] (c :: s)); [apply nullable_spec; exact En |].
        apply IH2. assumption.
      * apply Hcat. exact H.
    + intros H. apply matches_Cat_inv in H as [s1 [s2 [E [H1 H2]]]].
      destruct s1 as [|d s1]; simpl in E.
      * subst s2. apply nullable_spec in H1. rewrite H1.
        apply M_AltR, IH2. exact H2.
      * injection E as <- ->.
        assert (matches (Cat (deriv c r1) r2) (s1 ++ s2)) as Hc
            by (constructor; [apply IH1|]; assumption).
        destruct (nullable r1); [apply M_AltL|]; exact Hc.
  - split.
    + intros H. apply matches_Alt_inv in H as [H|H].
      * apply M_Plus1, IH. exact H.
      * apply matches_Cat_inv in H as [s1 [s2 [-> [Ha Hb]]]].
        apply IH in Ha. apply (M_PlusS r (c :: s1) s2); assumption.
    + intros H. apply matches_Plus_cons in H as [H|[s1 [s2 [-> [H1 H2]]]]].
      * apply M_AltL, IH. exact H.
      * apply M_AltR. constructor; [apply IH|]; assumption.
Qed.

Theorem test_spec (r : regex) (s : list N) : test r s = true <-> matches r s.
Proof.
  revert r. induction s as [|c s IH]; intros r; simpl.
  - apply nullable_spec.
  - rewrite IH. apply deriv_spec.
Qed.

(** Words of [[p]+]: non-empty, all characters in the class. *)
Lemma matches_Plus_Class (p : N -> bool) (s : list N) :
  matches (Plus (Class p)) s <-> s <> [] /\ forallb p s = true.
Proof.
  split.
  - intros H. remember (Plus (Class p)) as R eqn:ER.
    induction H as [| | | | |r w H|r s1 s2 H1 _ H2 IH2];
      try discriminate; injection ER as ->.
    + apply matches_Class_inv in H as [c [-> Hc]]. simpl. rewrite Hc.
      split; [discriminate | reflexivity].
    + apply matches_Class_inv in H1 as [c [-> Hc]]. simpl. rewrite Hc.
      split; [discriminate | apply IH2; reflexivity].
  - intros [Hne Hall]. induction s as [|c s IH]; [congruence |].
    simpl in Hall. apply andb_true_iff in Hall as [Hc Hs].
    destruct s as [|d s].
    + apply M_Plus1. constructor. exact Hc.
    + apply (M_PlusS (Class p) [c] (d :: s)).
      * constructor. exact Hc.
      * apply IH; [discriminate | exact Hs].
Qed.

(** The e-mail pattern read out: a local part, [@], a domain part, a
    dot and a last part, the three parts non-empty and free of white
    space and of [@]. *)
Lemma email_re_spec (s : list N) :
  matches email_re s <->
  exists a b c,
    s = a ++ js "@" ++ b ++ js "." ++ c /\
    a <> [] /\ b <> [] /\ c <> [] /\
    forallb not_space_at (a ++ b ++ c) = true.
Proof.
  unfold email_re, chr. split.
  - intros H.
    apply matches_Cat_inv in H as [a [s1 [-> [Ha H]]]].
    apply matches_Cat_inv in H as [x [s2 [-> [Hx H]]]].
    apply matches_Cat_inv in H as [b [s3 [-> [Hb H]]]].
    apply matches_Cat_inv in H as [y [c [-> [Hy Hc]]]].
    apply matches_Class_inv in Hx as [cx [-> Hx]].
    apply matches_Class_inv in Hy as [cy [-> Hy]].
    apply N.eqb_eq in Hx, Hy. subst cx cy.
    apply matches_Plus_Class in Ha as [Ha1 Ha2].
    apply matches_Plus_Class in Hb as [Hb1 Hb2].
    apply matches_Plus_Class in Hc as [Hc1 Hc2].
    exists a, b, c. repeat split; try assumption.
    rewrite !forallb_app, Ha2, Hb2, Hc2. reflexivity.
  - intros [a [b [c [-> [Ha [Hb [Hc Hall]]]]]]].
    rewrite !forallb_app, !andb_true_iff in Hall.
    destruct Hall as [Ha2 [Hb2 Hc2]].
    constructor; [apply matches_Plus_Class; auto |].
    apply (M_Cat _ _ (js "@")); [constructor; reflexivity |].
    constructor; [apply matches_Plus_Class; auto |].
    apply (M_Cat _ _ (js ".")); [constructor; reflexivity |].
    apply matches_Plus_Class; auto.
Qed.

(** ** The validator *)

Lemma truthy_Some (v : list N) : v <> [] -> truthy (Some v) = true.
Proof. destruct v; [congruence | reflexivity]. Qed.

Lemma truthy_false (o : option (list N)) :
  truthy o = false <-> default [] o = [].
Proof.
  destruct o as [[|c v]|]; simpl; split; intros; congruence.
Qed.

Lemma push_if_app (c : bool) (m : list N) (errors : list (list N)) :
  push_if c m errors = errors ++ (if c then [m] else []).
Proof. destruct c; simpl; [reflexivity | now rewrite app_nil_r]. Qed.

(** The error list is the list of the messages of the failed checks. *)
Lemma validate_checks (obj : gmap (list N) (list N)) :
  validate obj =
  map snd (List.filter (fun c => fst c obj) checks).
Proof.
  unfold validate, checks. rewrite !push_if_app. simpl.
  destruct (name_bad obj), (email_bad obj), (phone_bad obj),
    (message_bad obj); reflexivity.
Qed.

Lemma validate_with_instagram (ig : option (list N))
  (obj : gmap (list N) (list N)) :
  validate (with_instagram ig obj) = validate obj.
Proof.
  unfold validate, name_bad, email_bad, phone_bad, message_bad.
  destruct ig as [v|]; simpl.
  - rewrite !lookup_insert_ne by js_neq. reflexivity.
  - rewrite !lookup_delete_ne by js_neq. reflexivity.
Qed.

Lemma email_re_not_nil : ~ matches email_re [].
Proof. intros H. apply test_spec in H. discriminate H. Qed.

(** C1: a field map whose name is non-empty after trimming, whose email
    matches the pattern, whose phone has at least 6 characters and whose
    message has at least 10 gets an empty error list; and setting,
    changing or removing the instagram field of any field map leaves
    the error list as it is. *)
Theorem validator_accepts :
  (forall (ig : option (list N)) (obj : gmap (list N) (list N)),
      validate (with_instagram ig obj) = validate obj) /\
  (forall (obj : gmap (list N) (list N)) (n e p m : list N),
      obj !! js "name" = Some n -> trim n <> [] ->
      obj !! js "email" = Some e -> matches email_re e ->
      obj !! js "phone" = Some p -> (6 <= length p)%nat ->
      obj !! js "message" = Some m -> (10 <= length m)%nat ->
      validate obj = []).
Proof.
  split; [exact validate_with_instagram |].
  intros obj n e p m Hn Hn' He He' Hp Hp' Hm Hm'.
  unfold validate, name_bad, email_bad, phone_bad, message_bad.
  rewrite Hn, He, Hp, Hm. cbn [from_option id].
  rewrite (truthy_Some n) by (apply trim_nonempty; exact Hn').
  rewrite (truthy_Some e)
    by (intros ->; apply email_re_not_nil; exact He').
  apply test_spec in He'. rewrite He'.
  rewrite (truthy_Some p) by (destruct p; simpl in *; [lia | discriminate]).
  rewrite (truthy_Some m) by (destruct m; simpl in *; [lia | discriminate]).
  replace (N.of_nat (length p) <? 6) with false
    by (symmetry; apply N.ltb_ge; lia).
  replace (N.of_nat (length m) <? 10) with false
    by (symmetry; apply N.ltb_ge; lia).
  reflexivity.
Qed.

Lemma validator_accepts_witness : validate scenarioA = [].
Proof.
  apply (proj2 validator_accepts scenarioA
           (js "Ana") (js "ana@mail.com") (js "08123456")
           (js "Hello, I am interested in the course.")).
  - reflexivity.
  - vm_compute. discriminate.
  - reflexivity.
  - apply test_spec. vm_compute. reflexivity.
  - reflexivity.
  - vm_compute. lia.
  - reflexivity.
  - vm_compute. lia.
Defined.

(** ** The field map built from the form data *)

Lemma collect_snoc (fdata : list (list N * list N)) (k v : list N) :
  collect (fdata ++ [(k, v)]) = obj_set k (trim v) (collect fdata).
Proof. unfold collect. rewrite foldl_app. reflexivity. Qed.

Lemma last_value_snoc (k k' v : list N) (fdata : list (list N * list N)) :
  last_value k (fdata ++ [(k', v)]) =
  if decide (k' = k) then Some v else last_value k fdata.
Proof.
  induction fdata as [|[k0 v0] fdata IH]; simpl.
  - reflexivity.
  - rewrite IH. destruct (decide (k' = k)); [reflexivity |].
    reflexivity.
Qed.

(** The field map holds, under every name but [__proto__], the trimmed
    value of the last entry of that name. *)
Lemma collect_lookup (fdata : list (list N * list N)) (k : list N) :
  collect fdata !! k =
  if decide (k = js "__proto__") then None
  else trim <$> last_value k fdata.
Proof.
  induction fdata as [|[k' v] fdata IH] using rev_ind.
  - unfold collect. cbn [foldl last_value fmap option_fmap option_map].
    rewrite lookup_empty. destruct (decide _); reflexivity.
  - rewrite collect_snoc, last_value_snoc. unfold obj_set.
    destruct (decide (k' = js "__proto__")) as [->|Hk'].
    + rewrite IH. destruct (decide (k = js "__proto__")) as [->|Hk].
      * reflexivity.
      * destruct (decide (js "__proto__" = k)); [congruence | reflexivity].
    + destruct (decide (k' = k)) as [->|Hne].
      * rewrite lookup_insert_eq.
        destruct (decide (k = js "__proto__")); [congruence | reflexivity].
      * rewrite lookup_insert_ne by exact Hne. exact IH.
Qed.

Lemma collect_trimmed (fdata : list (list N * list N)) (k v : list N) :
  collect fdata !! k = Some v -> trim v = v.
Proof.
  rewrite collect_lookup. destruct (decide _); [discriminate |].
  destruct (last_value k fdata) as [u|]; simpl; [|discriminate].
  intros [= <-]. apply trim_idem.
Qed.

(** The name check alone decides whether its message is in the list. *)
Lemma name_message (obj : gmap (list N) (list N)) :
  In msg_name (validate obj) <-> name_bad obj = true.
Proof.
  rewrite validate_checks. unfold checks. cbn [List.filter fst].
  destruct (name_bad obj).
  - split; [reflexivity | intros _; left; reflexivity].
  - split; [|discriminate]. intros H. exfalso.
    destruct (email_bad obj), (phone_bad obj), (message_bad obj);
      cbn [map snd In] in H;
      repeat (destruct H as [H|H]; [vm_compute in H; discriminate H |]);
      exact H.
Qed.

(** C6, as the code has it: when the name of the field map built from
    the form data is missing or empty after trimming, the error list
    contains the message of the name check, whatever the other fields
    are; the message is the text ['Nama wajib diisi.'] of the source. *)
Theorem name_required (fdata : list (list N * list N)) :
  trim (default [] (collect fdata !! js "name")) = [] ->
  In (js "Nama wajib diisi.") (validate (collect fdata)).
Proof.
  intros H. apply name_message. unfold name_bad.
  apply negb_true_iff, truthy_false.
  destruct (collect fdata !! js "name") as [v|] eqn:E; [|reflexivity].
  simpl in *. apply collect_trimmed in E. congruence.
Qed.

Lemma name_required_witness :
  In (js "Nama wajib diisi.") (validate (collect fdataB)).
Proof. apply (name_required fdataB). reflexivity. Defined.

(** C6, as the specification words it, fails: on the form data of
    scenario B the name is empty and the error list does not contain
    the text ["Name is required"]. *)
Lemma name_required_message_counterexample :
  trim (default [] (collect fdataB !! js "name")) = [] /\
  validate (collect fdataB) =
    [js "Nama wajib diisi."; js "Email tidak valid.";
     js "Nomor telepon tampak terlalu pendek.";
     js "Pesan minimal 10 karakter."] /\
  ~ In (js "Name is required") (validate (collect fdataB)).
Proof.
  split; [reflexivity |]. split; [reflexivity |].
  intros H. vm_compute in H.
  repeat (destruct H as [H|H]; [discriminate H |]). exact H.
Qed.

Lemma filter_precedes {A B} (f : A -> bool) (g : A -> B) (l : list A)
  (i j : nat) (x y : A) :
  l !! i = Some x -> l !! j = Some y -> (i < j)%nat ->
  f x = true -> f y = true ->
  exists l1 l2 l3, map g (List.filter f l) = l1 ++ g x :: l2 ++ g y :: l3.
Proof.
  intros Hi Hj Hlt Hx Hy.
  rewrite <- (take_drop_middle l i x Hi).
  assert (drop (S i) l !! (j - S i)%nat = Some y) as Hd.
  { rewrite lookup_drop. replace (S i + (j - S i))%nat with j by lia.
    exact Hj. }
  rewrite <- (take_drop_middle _ _ _ Hd).
  rewrite List.filter_app. cbn [List.filter]. rewrite Hx.
  rewrite List.filter_app. cbn [List.filter]. rewrite Hy.
  rewrite map_app. cbn [map]. rewrite map_app. cbn [map].
  eexists _, _, _. reflexivity.
Qed.

(** C7: the error list holds the messages of the failed checks in the
    order name, email, phone, message: of two checks that both fail,
    the message of the one that comes first in that order comes first
    in the list. *)
Theorem validate_order (obj : gmap (list N) (list N)) :
  validate obj = map snd (List.filter (fun c => fst c obj) checks) /\
  forall (i j : nat) (ci cj : gmap (list N) (list N) -> bool)
         (mi mj : list N),
    checks !! i = Some (ci, mi) -> checks !! j = Some (cj, mj) ->
    (i < j)%nat -> ci obj = true -> cj obj = true ->
    exists l1 l2 l3, validate obj = l1 ++ mi :: l2 ++ mj :: l3.
Proof.
  split; [apply validate_checks |].
  intros i j ci cj mi mj Hi Hj Hlt Hci Hcj.
  rewrite validate_checks.
  exact (filter_precedes (fun c => fst c obj) snd checks i j
           (ci, mi) (cj, mj) Hi Hj Hlt Hci Hcj).
Qed.

Lemma validate_order_witness :
  exists l1 l2 l3,
    validate scenarioB = l1 ++ msg_email :: l2 ++ msg_message :: l3.
Proof.
  apply (proj2 (validate_order scenarioB) 1%nat 3%nat
           email_bad message_bad msg_email msg_message);
    [reflexivity | reflexivity | lia | reflexivity | reflexivity].
Defined.

(** ** The input-name normalizer *)

Lemma fallback_name_nonempty (i : nat) : fallback_name i <> [].
Proof.
  unfold fallback_name. destruct (names !! i) as [[|c n]|]; simpl;
    discriminate.
Qed.

Lemma name_input_named (i : nat) (inp : input) :
  inp_name inp <> [] -> name_input i inp = inp.
Proof.
  unfold name_input. intros H. rewrite (truthy_Some _ H). reflexivity.
Qed.

Lemma name_input_has_name (i : nat) (inp : input) :
  inp_name (name_input i inp) <> [].
Proof.
  unfold name_input. destruct (inp_name inp) as [|c n] eqn:E; simpl.
  - apply fallback_name_nonempty.
  - rewrite E. discriminate.
Qed.

Lemma normalize_lookup (inputs : list input) (i : nat) :
  normalize inputs !! i = name_input i <$> inputs !! i.
Proof. apply list_lookup_imap. Qed.


(** C8: running the normalizer on its own result changes nothing, so
    the names assigned by two runs are those assigned by one; and a
    control that already has a name is left as it is. *)
Theorem normalize_idempotent (inputs : list input) :
  normalize (normalize inputs) = normalize inputs /\
  map inp_name (normalize (normalize inputs)) =
    map inp_name (normalize inputs) /\
  forall (i : nat) (inp : input),
    inputs !! i = Some inp -> inp_name inp <> [] ->
    normalize inputs !! i = Some inp.
Proof.
  assert (normalize (normalize inputs) = normalize inputs) as E.
  { apply list_eq. intros i. rewrite !normalize_lookup.
    destruct (inputs !! i) as [x|]; simpl; [|reflexivity].
    f_equal. apply name_input_named, name_input_has_name. }
  split; [exact E |]. split; [now rewrite E |].
  intros i inp Hi Hn. rewrite normalize_lookup, Hi. simpl.
  f_equal. apply name_input_named. exact Hn.
Qed.

Lemma normalize_idempotent_witness :
  normalize sample_form !! 5%nat =
    Some (Input (js "topic") (js "web") (js "web") []).
Proof.
  apply (proj2 (proj2 (normalize_idempotent sample_form)) 5%nat);
    [reflexivity | discriminate].
Defined.

Example normalize_sample :
  map inp_name (normalize sample_form) =
  [js "name"; js "email"; js "phone"; js "instagram"; js "message";
   js "topic"; js "field6"].
Proof. reflexivity. Qed.

(** ** The store *)

Lemma obj_set_lookup (k v k' : list N) (obj : gmap (list N) (list N)) :
  obj_set k v obj !! k' =
  if decide (k = js "__proto__") then obj !! k'
  else if decide (k = k') then Some v else obj !! k'.
Proof.
  unfold obj_set. destruct (decide (k = js "__proto__")); [reflexivity |].
  apply lookup_insert.
Qed.

(** [Object.assign] lets the source win on every key but [__proto__],
    which it leaves as the target has it. *)
Lemma Object_assign_lookup (target source : gmap (list N) (list N))
  (k : list N) :
  Object_assign target source !! k =
  if decide (k = js "__proto__") then target !! k
  else match source !! k with
       | Some v => Some v
       | None => target !! k
       end.
Proof.
  unfold Object_assign.
  apply (map_fold_weak_ind
    (fun r m => r !! k =
       if decide (k = js "__proto__") then target !! k
       else match m !! k with Some v => Some v | None => target !! k end)).
  - rewrite lookup_empty. destruct (decide _); reflexivity.
  - intros i x m r Hi IH. rewrite obj_set_lookup.
    destruct (decide (i = js "__proto__")) as [->|Hp].
    + rewrite IH. destruct (decide (k = js "__proto__")) as [->|Hk];
        [reflexivity |].
      rewrite lookup_insert_ne by congruence. reflexivity.
    + destruct (decide (i = k)) as [->|Hne].
      * rewrite lookup_insert_eq.
        destruct (decide (k = js "__proto__")); [congruence | reflexivity].
      * rewrite lookup_insert_ne by exact Hne. exact IH.
Qed.

(** The fields of the stored entry: those of the record, and the
    timestamp unless the record has a [submittedAt] of its own. *)
Lemma entry_lookup (e : env) (obj : gmap (list N) (list N)) (k : list N) :
  entry e obj !! k =
  if decide (k = js "__proto__") then None
  else match obj !! k with
       | Some v => Some v
       | None => if decide (k = js "submittedAt")
                 then Some (toISOString (now e)) else None
       end.
Proof.
  unfold entry. rewrite Object_assign_lookup.
  destruct (decide (k = js "__proto__")) as [->|Hk].
  - apply lookup_singleton_ne. js_neq.
  - destruct (obj !! k); [reflexivity |].
    destruct (decide (k = js "submittedAt")) as [->|Hs].
    + apply lookup_singleton_eq.
    + apply lookup_singleton_ne. congruence.
Qed.


Lemma entry_submittedAt (e : env) (obj : gmap (list N) (list N)) :
  submittedAt (record (entry e obj)) =
  Some (default (toISOString (now e)) (obj !! js "submittedAt")).
Proof.
  unfold submittedAt, record. rewrite lookup_fmap, entry_lookup.
  destruct (decide (js "submittedAt" = js "__proto__")) as [H|_];
    [vm_compute in H; discriminate H |].
  destruct (obj !! js "submittedAt"); [reflexivity |].
  destruct (decide (js "submittedAt" = js "submittedAt")); [|congruence].
  reflexivity.
Qed.

(** ** Writing a value and reading it back *)

Lemma foldr_max_bound {A} (f : A -> nat) (l : list A) (x : A) :
  x ∈ l -> (f x <= foldr (fun x acc => max (f x) acc) 0 l)%nat.
Proof.
  induction l as [|y l IH]; intros H.
  - apply elem_of_nil in H. destruct H.
  - apply elem_of_cons in H as [->|H]; cbn; [lia |].
    specialize (IH H). lia.
Qed.

Lemma map_fold_max_bound {A} (f : A -> nat) (m : gmap (list N) A)
  (k : list N) (x : A) :
  m !! k = Some x ->
  (f x <= map_fold (fun _ x acc => max (f x) acc) 0 m)%nat.
Proof.
  revert k x.
  apply (map_fold_weak_ind
    (fun r (m : gmap (list N) A) =>
       forall k x, m !! k = Some x -> (f x <= r)%nat)).
  - intros k x H. rewrite lookup_empty in H. discriminate.
  - intros i y m' r Hi IH k x H.
    destruct (decide (i = k)) as [->|Hne].
    + rewrite lookup_insert_eq in H. injection H as ->. lia.
    + rewrite lookup_insert_ne in H by exact Hne. specialize (IH k x H). lia.
Qed.

Lemma depth_item (items : list json) (x : json) :
  x ∈ items -> (depth x < depth (JArray items))%nat.
Proof.
  intros H. cbn [depth]. pose proof (foldr_max_bound depth items x H). lia.
Qed.

Lemma depth_field (fields : gmap (list N) json) (k : list N) (x : json) :
  fields !! k = Some x -> (depth x < depth (JObject fields))%nat.
Proof.
  intros H. cbn [depth].
  pose proof (map_fold_max_bound depth fields k x H). lia.
Qed.

(** A value without infinities and negative zeros is written and read
    back as it is. *)
Lemma reread_plain (v : json) : plain v -> reread v = v.
Proof.
  remember (S (depth v)) as n eqn:En.
  assert (depth v < n)%nat as Hd by lia. clear En.
  revert v Hd. induction n as [|n IH]; intros v Hd Hp; [lia |].
  destruct Hp as [|b|t|s|items Hi|fields Hf]; try reflexivity.
  - cbn [reread]. f_equal. rewrite <- (map_id items) at 2.
    apply map_ext_in. intros x Hx. apply list_elem_of_In in Hx.
    apply IH.
    + pose proof (depth_item items x Hx). lia.
    + rewrite Forall_forall in Hi. apply Hi, Hx.
  - cbn [reread]. f_equal. apply map_eq. intros k.
    rewrite lookup_fmap. destruct (fields !! k) as [x|] eqn:E; [|reflexivity].
    cbn. f_equal. apply IH.
    + pose proof (depth_field fields k x E). lia.
    + apply (Hf k x E).
Qed.

(** What is read back holds no infinity and no negative zero. *)
Lemma plain_reread (v : json) : plain (reread v).
Proof.
  remember (S (depth v)) as n eqn:En.
  assert (depth v < n)%nat as Hd by lia. clear En.
  revert v Hd. induction n as [|n IH]; intros v Hd; [lia |].
  destruct v as [|b|[t| |neg]|s|items|fields]; cbn [reread];
    try constructor.
  - rewrite Forall_forall. intros y Hy.
    apply list_elem_of_In, in_map_iff in Hy as [x [<- Hx]].
    apply list_elem_of_In in Hx.
    apply IH. pose proof (depth_item items x Hx). lia.
  - intros k y. rewrite lookup_fmap.
    destruct (fields !! k) as [x|] eqn:E; cbn; [|discriminate].
    intros [= <-]. apply IH. pose proof (depth_field fields k x E). lia.
Qed.

Lemma reread_idem (v : json) : reread (reread v) = reread v.
Proof. apply reread_plain, plain_reread. Qed.

Lemma plain_record (o : gmap (list N) (list N)) : plain (record o).
Proof.
  constructor. intros k x. rewrite lookup_fmap.
  destruct (o !! k); cbn; [|discriminate]. intros [= <-]. constructor.
Qed.

Lemma reread_record (o : gmap (list N) (list N)) :
  reread (record o) = record o.
Proof. apply reread_plain, plain_record. Qed.

Lemma map_reread_plain (l : list json) :
  Forall plain l -> map reread l = l.
Proof.
  induction 1 as [|x l Hx _ IH]; cbn [map]; [reflexivity |].
  rewrite (reread_plain x Hx), IH. reflexivity.
Qed.

Lemma map_reread_idem (l : list json) :
  map reread (map reread l) = map reread l.
Proof.
  apply map_reread_plain. rewrite Forall_forall. intros y Hy.
  apply list_elem_of_In, in_map_iff in Hy as [x [<- _]]. apply plain_reread.
Qed.

Lemma kept_plain {A} (news : list A) (old : list json) :
  Forall plain old -> kept news old = old.
Proof. intros H. destruct news; [reflexivity | apply map_reread_plain, H]. Qed.


(** What one append does: with a working storage and a stored value
    that reads as a sequence, the entry is written at its end; in every
    other case the page stays as it is.  It never throws. *)
Lemma append_spec (e : env) (obj : gmap (list N) (list N)) (p : page) :
  append e obj p =
  (inr tt,
   match storage e, stored p with
   | Works, Some old => appended e obj old p
   | _, _ => p
   end).
Proof.
  unfold append, try_catch, save, getItem, setItem, stored.
  destruct (storage e); cbv [bind get_page ret throw modify];
    [| reflexivity |];
    destruct (localStorage p !! key) as [[|raw|[| | | |items|]]|];
    try reflexivity;
    cbn [or_empty_array JSON_parse ret push]; unfold JSON_stringify;
    cbn [reread]; rewrite map_app; cbn [map]; rewrite reread_record;
    reflexivity.
Qed.


Lemma stored_appended (e : env) (obj : gmap (list N) (list N))
  (old : list json) (p : page) :
  stored (appended e obj old p) =
  Some (map reread old ++ [record (entry e obj)]).
Proof.
  unfold stored, appended, with_localStorage. cbn [localStorage].
  rewrite lookup_insert_eq. reflexivity.
Qed.




(** An earlier item that holds an infinite number is written back as
    [null], and a negative zero as [0]. *)
Example append_rewrites_numbers :
  stored (snd (append env0 scenarioA
                 (with_localStorage
                    {[ key := Serialized
                                (JArray [JNumber (Infinite false);
                                         JNumber NegZero;
                                         JNumber (Finite (js "1.5"))]) ]}
                    page0))) =
  Some [JNull; JNumber (Finite (js "0")); JNumber (Finite (js "1.5"));
        JObject (JString <$> entry env0 scenarioA)].
Proof.
  rewrite append_spec. cbn [snd storage env0].
  match goal with |- context [stored ?q] =>
    change (stored q) with (Some [JNumber (Infinite false); JNumber NegZero;
                                  JNumber (Finite (js "1.5"))]) end.
  cbn iota. rewrite stored_appended. reflexivity.
Qed.

Lemma kept_appended {A} (news : list A) (old : list json)
  (o : gmap (list N) (list N)) :
  kept news (map reread old ++ [record o]) = map reread old ++ [record o].
Proof.
  destruct news; cbn [kept]; [reflexivity |].
  rewrite map_app, map_reread_idem. cbn [map]. rewrite reread_record.
  reflexivity.
Qed.

(** A run of appends: the entries of the events whose storage works are
    added, in order, to a stored value that reads as a sequence; a
    stored value that does not is never replaced. *)
Lemma appends_spec (rs : list (env * gmap (list N) (list N))) (p : page) :
  fst (appends rs p) = inr tt /\
  stored (snd (appends rs p)) =
    (fun old =>
       kept (List.filter (fun x => works (fst x)) rs) old
       ++ map written (List.filter (fun x => works (fst x)) rs))
      <$> stored p.
Proof.
  revert p. induction rs as [|[e obj] rs IH]; intros p.
  - cbn. split; [reflexivity |].
    destruct (stored p); cbn; [now rewrite app_nil_r | reflexivity].
  - cbn [appends]. unfold bind. rewrite append_spec.
    destruct (IH (match storage e, stored p with
                  | Works, Some old => appended e obj old p
                  | _, _ => p
                  end)) as [IH1 IH2].
    destruct (appends rs _) as [[x|[]] p'] eqn:E; cbn [fst snd] in *;
      [discriminate IH1 |].
    split; [reflexivity |]. rewrite IH2.
    cbn [List.filter fst]. unfold works at 3 6.
    destruct (storage e); destruct (stored p) as [old|] eqn:Es;
      rewrite ?stored_appended, ?Es; cbn [fmap option_fmap option_map];
      try reflexivity.
    rewrite kept_appended. cbn [kept map written fst snd].
    rewrite <- app_assoc. reflexivity.
Qed.





(** ** The submit handler *)

Lemma shadowed_spec (method : list N) (p : page) :
  shadowed method p = true <-> exposes method p.
Proof.
  unfold shadowed, exposes.
  rewrite orb_true_iff, existsb_exists, bool_decide_eq_true.
  split; intros [[inp [Hi Hn]] | H]; [left | now right | left | now right];
    exists inp.
  - apply list_elem_of_In in Hi. split; [exact Hi |].
    apply orb_true_iff in Hn as [Hn | Hn];
      apply bool_decide_eq_true in Hn; [now left | now right].
  - apply list_elem_of_In in Hi. split; [exact Hi |].
    apply orb_true_iff. destruct Hn as [Hn | Hn];
      [left | right]; apply bool_decide_eq_true, Hn.
Qed.

Lemma not_exposes (method : list N) (p : page) :
  ~ exposes method p -> shadowed method p = false.
Proof.
  intros H. destruct (shadowed method p) eqn:E; [|reflexivity].
  apply shadowed_spec in E. contradiction.
Qed.

(** Neither the toast nor a reset changes what the form exposes. *)
Lemma shadowed_frame (method : list N) (p q : page) :
  map inp_name (inputs q) = map inp_name (inputs p) ->
  map inp_id (inputs q) = map inp_id (inputs p) ->
  named q = named p ->
  shadowed method q = shadowed method p.
Proof.
  unfold shadowed. intros Hn Hi ->. f_equal.
  revert Hn Hi. generalize (inputs p). generalize (inputs q).
  induction l as [|x l IH]; intros [|y l'] Hn Hi; try discriminate;
    [reflexivity |].
  cbn [map] in Hn, Hi. injection Hn as Hx Hn. injection Hi as Hy Hi.
  cbn [existsb]. rewrite Hx, Hy, (IH l' Hn Hi). reflexivity.
Qed.

Lemma reset_names (form : list input) :
  map inp_name (map reset_input form) = map inp_name form /\
  map inp_id (map reset_input form) = map inp_id form.
Proof. rewrite !map_map. split; reflexivity. Qed.


Lemma join_space (m : list N) (rest : list (list N)) :
  join (js " ") (m :: rest) =
  m ++ concat (map (fun x => js " " ++ x) rest).
Proof.
  revert m. induction rest as [|y rest IH]; intros m.
  - cbn [join map concat]. now rewrite app_nil_r.
  - change (join (js " ") (m :: y :: rest))
      with (m ++ js " " ++ join (js " ") (y :: rest)).
    rewrite IH. cbn [map concat]. now rewrite <- !app_assoc.
Qed.

(** What one run of the handler does. *)
Lemma on_submit_spec (e : env) (p : page) :
  on_submit e p =
  match validate (obj_of p) with
  | [] =>
      let ls := localStorage (snd (append e (obj_of p) p)) in
      if shadowed (js "reset") p then (inl TypeError, shown ls p)
      else if shadowed (js "appendChild") p
           then (inl TypeError, cleared ls p)
           else (inr tt, accepted ls p)
  | errors => (inr tt, rejected errors p)
  end.
Proof.
  unfold on_submit, obj_of.
  cbv [bind preventDefault modify get_page]. cbn [inputs].
  destruct (validate (collect (FormData (inputs p)))) as [|m errors] eqn:Ev.
  - cbn [length Nat.eqb negb]. rewrite !append_spec.
    cbv [form_reset sparkles bind get_page modify throw].
    set (obj := collect (FormData (inputs p))).
    assert (forall (ls : gmap (list N) text) (t : status) (b : bool)
                   (n : nat) (l : list input),
               map inp_name l = map inp_name (inputs p) ->
               map inp_id l = map inp_id (inputs p) ->
               forall m : list N,
               shadowed m
                 {| inputs := l; toast := t; localStorage := ls;
                    defaultPrevented := b; bursts := n; named := named p |}
               = shadowed m p) as Hs.
    { intros ls t b n l Hn Hi m. apply shadowed_frame;
        [assumption | assumption | reflexivity]. }
    destruct (reset_names (inputs p)) as [Hrn Hri].
    unfold stored. cbn [localStorage].
    destruct (storage e);
      destruct (or_empty_array (localStorage p !! key))
        as [|raw|[| | | |items|]];
      cbn [snd set_display set_background set_color set_textContent
           set_toast modify inputs toast localStorage defaultPrevented
           bursts named appended with_localStorage display background
           color textContent];
      cbv [set_display set_background set_color set_textContent
           set_toast modify];
      cbn [inputs toast localStorage defaultPrevented bursts named
           display background color textContent];
      rewrite (Hs _ _ _ _ (inputs p) eq_refl eq_refl (js "reset"));
      (destruct (shadowed (js "reset") p); [reflexivity |]);
      cbn [inputs toast localStorage defaultPrevented bursts named];
      rewrite (Hs _ _ _ _ (map reset_input (inputs p)) Hrn Hri
                 (js "appendChild"));
      (destruct (shadowed (js "appendChild") p); reflexivity).
  - reflexivity.
Qed.

(** C5: a submission that fails validation shows the error messages in
    the toast, after [Gagal kirim: ] and with one space between two
    messages, on the error colours; it writes nothing to the store,
    leaves the controls of the form as they are and returns normally,
    which puts the controller back in its idle state; and every run of
    the handler, whatever the outcome, cancels the default action of
    the event. *)
Theorem rejected_submit (e : env) (p : page) :
  (forall (m : list N) (rest : list (list N)),
      validate (obj_of p) = m :: rest ->
      fst (on_submit e p) = inr tt /\
      toast (snd (on_submit e p)) =
        {| display := js "block"; background := js "#fff6f6";
           color := js "#8a1f1f";
           textContent :=
             js "Gagal kirim: "
             ++ m ++ concat (map (fun x => js " " ++ x) rest) |} /\
      localStorage (snd (on_submit e p)) = localStorage p /\
      stored (snd (on_submit e p)) = stored p /\
      inputs (snd (on_submit e p)) = inputs p /\
      bursts (snd (on_submit e p)) = bursts p) /\
  defaultPrevented (snd (on_submit e p)) = true.
Proof.
  rewrite on_submit_spec. split.
  - intros m rest ->. cbn [fst snd].
    unfold rejected, error_status. cbn [toast localStorage inputs bursts].
    rewrite join_space. repeat split; reflexivity.
  - destruct (validate (obj_of p)); [|reflexivity].
    cbv zeta. destruct (shadowed (js "reset") p); [reflexivity |].
    destruct (shadowed (js "appendChild") p); reflexivity.
Qed.

Lemma rejected_submit_witness :
  toast (snd (on_submit env0 (with_inputs formB page0))) =
    {| display := js "block"; background := js "#fff6f6";
       color := js "#8a1f1f";
       textContent := js "Gagal kirim: Nama wajib diisi. Email tidak valid. Nomor telepon tampak terlalu pendek. Pesan minimal 10 karakter." |} /\
  stored (snd (on_submit env0 (with_inputs formB page0))) = Some [] /\
  inputs (snd (on_submit env0 (with_inputs formB page0))) = formB.
Proof.
  destruct (rejected_submit env0 (with_inputs formB page0)) as [H _].
  destruct (H (js "Nama wajib diisi.")
              [js "Email tidak valid.";
               js "Nomor telepon tampak terlalu pendek.";
               js "Pesan minimal 10 karakter."])
    as [_ [H1 [_ [H2 [H3 _]]]]]; [vm_compute; reflexivity |].
  split; [exact H1 |]. split; [exact H2 | exact H3].
Defined.

(** Scenario B: four messages, joined into the text of the toast. *)
Example scenarioB_toast :
  textContent (toast (snd (on_submit env0 (with_inputs formB page0)))) =
  js "Gagal kirim: Nama wajib diisi. Email tidak valid. Nomor telepon tampak terlalu pendek. Pesan minimal 10 karakter.".
Proof. reflexivity. Qed.




(** The same on a form whose submit button has the id [reset]. *)
Example reset_button_shadows :
  validate (obj_of page_reset_button) = [] /\
  fst (on_submit env0 page_reset_button) = inl TypeError /\
  inputs (snd (on_submit env0 page_reset_button)) = formA /\
  stored (snd (on_submit env0 page_reset_button)) =
    Some [JObject (JString <$> entry env0 (obj_of page_reset_button))].
Proof.
  split; [vm_compute; reflexivity |]. split; [vm_compute; reflexivity |].
  split; [vm_compute; reflexivity |].
  rewrite on_submit_spec.
  replace (validate (obj_of page_reset_button)) with (@nil (list N))
    by (vm_compute; reflexivity).
  cbv zeta. rewrite append_spec.
  replace (shadowed (js "reset") page_reset_button) with true
    by (vm_compute; reflexivity).
  cbn [snd storage env0]. unfold shown, stored. cbn [localStorage].
  reflexivity.
Qed.

(** An accepted submission with a working storage, on a form whose
    methods are not hidden, appends one entry. *)
Lemma accepted_submit (e : env) (p : page) (old : list json) :
  validate (obj_of p) = [] -> storage e = Works -> stored p = Some old ->
  shadowed (js "reset") p = false ->
  shadowed (js "appendChild") p = false ->
  on_submit e p =
  (inr tt,
   accepted (<[key := Serialized
                        (JArray (map reread old
                                 ++ [record (entry e (obj_of p))]))]>
               (localStorage p)) p).
Proof.
  intros Hv Hw Hs Hr Ha.
  rewrite on_submit_spec, Hv, append_spec, Hw, Hs, Hr, Ha. reflexivity.
Qed.

(** The storage a submission leaves: the one its append leaves when it
    is valid, the one it found when it is not. *)
Lemma on_submit_append (e : env) (p : page) :
  localStorage (snd (on_submit e p)) =
  match validate (obj_of p) with
  | [] => localStorage (snd (append e (obj_of p) p))
  | _ => localStorage p
  end.
Proof.
  rewrite on_submit_spec.
  destruct (validate (obj_of p)); [|reflexivity]. cbv zeta.
  destruct (shadowed (js "reset") p); [reflexivity |].
  destruct (shadowed (js "appendChild") p); reflexivity.
Qed.

(** Scenario A: the error list is empty, the stored sequence grows by
    one record and the success message is shown. *)
Example scenarioA_accepted :
  validate (obj_of (with_inputs formA page0)) = [] /\
  obj_of (with_inputs formA page0) !! js "name" = Some (js "Ana") /\
  stored (snd (on_submit env0 (with_inputs formA page0))) =
    Some [record (entry env0 (obj_of (with_inputs formA page0)))] /\
  toast (snd (on_submit env0 (with_inputs formA page0))) = success_status.
Proof.
  split; [vm_compute; reflexivity |].
  split; [vm_compute; reflexivity |].
  rewrite (accepted_submit env0 (with_inputs formA page0) [])
    by (vm_compute; reflexivity).
  split; reflexivity.
Qed.








(** What a valid submission leaves in the store when the storage
    works, whether or not the handler returns normally. *)
Lemma on_submit_stored (e : env) (p : page) (old : list json) :
  validate (obj_of p) = [] -> storage e = Works -> stored p = Some old ->
  stored (snd (on_submit e p)) =
  Some (map reread old ++ [record (entry e (obj_of p))]).
Proof.
  intros Hv Hw Hs. unfold stored at 1.
  rewrite on_submit_append, Hv, append_spec, Hw, Hs. cbn [snd].
  apply stored_appended.
Qed.




(** A value that ends in a surrogate without its pair is stored with
    U+FFFD in its place. *)
Example surrogate_replaced :
  validate (obj_of (with_inputs form_surrogate page0)) = [] /\
  entry env0 (obj_of (with_inputs form_surrogate page0)) !! js "instagram" =
    Some (js "@ana" ++ [65533]).
Proof. split; vm_compute; reflexivity. Qed.

(** ** Dates: a timestamp read back is the time value written *)

Open Scope Z_scope.

Lemma DayFromYear_bounds (y : Z) :
  146097 * (y - 1970) - 506 <= 400 * DayFromYear y <= 146097 * (y - 1970) + 589.
Proof. unfold DayFromYear. Z.div_mod_to_equations. lia. Qed.

Lemma YearFromDay_spec (d : Z) :
  DayFromYear (YearFromDay d) <= d < DayFromYear (YearFromDay d + 1).
Proof.
  unfold YearFromDay.
  set (y := 1970 + 400 * d / 146097).
  assert (146097 * (y - 1970) <= 400 * d < 146097 * (y - 1970) + 146097) as Hy.
  { subst y. Z.div_mod_to_equations. lia. }
  pose proof (DayFromYear_bounds (y - 1)) as H1.
  pose proof (DayFromYear_bounds (y + 1 + 1)) as H2.
  destruct (Z.ltb_spec d (DayFromYear y)).
  - replace (y - 1 + 1) with y by lia. lia.
  - destruct (Z.leb_spec (DayFromYear (y + 1)) d); lia.
Qed.

Lemma DaysInYear_spec (y : Z) :
  DaysInYear y = DayFromYear (y + 1) - DayFromYear y.
Proof.
  unfold DaysInYear, DayFromYear.
  destruct (Z.eqb_spec (y mod 4) 0), (Z.eqb_spec (y mod 100) 0),
    (Z.eqb_spec (y mod 400) 0); cbn [negb];
    Z.div_mod_to_equations; lia.
Qed.

Lemma time_parts (t : Z) :
  MakeDate (Day t)
    (MakeTime (HourFromTime t) (MinFromTime t) (SecFromTime t) (msFromTime t)) = t.
Proof.
  unfold MakeDate, MakeTime, Day, HourFromTime, MinFromTime, SecFromTime,
    msFromTime, msPerDay.
  Z.div_mod_to_equations. lia.
Qed.

Lemma DayWithinYear_bounds (t : Z) :
  0 <= DayWithinYear t < DaysInYear (YearFromTime t).
Proof.
  unfold DayWithinYear, YearFromTime. rewrite DaysInYear_spec.
  pose proof (YearFromDay_spec (Day t)). lia.
Qed.

Lemma DaysInYear_cases (y : Z) : DaysInYear y = 365 \/ DaysInYear y = 366.
Proof.
  unfold DaysInYear.
  destruct (negb _); [auto |]. destruct (negb _); [auto |].
  destruct (negb _); auto.
Qed.

Lemma InLeapYear_spec (t : Z) :
  DaysInYear (YearFromTime t) = 365 + InLeapYear t /\
  (InLeapYear t = 0 \/ InLeapYear t = 1).
Proof.
  unfold InLeapYear.
  destruct (DaysInYear_cases (YearFromTime t)) as [-> | ->]; cbn; lia.
Qed.

(** The day of a time value from its year, month and date. *)
Lemma MakeDay_parts (t : Z) :
  MakeDay (YearFromTime t) (MonthFromTime t + 1 - 1) (DateFromTime t) = Day t /\
  1 <= MonthFromTime t + 1 <= 12 /\
  1 <= DateFromTime t <= 31.
Proof.
  replace (MonthFromTime t + 1 - 1) with (MonthFromTime t) by lia.
  unfold MakeDay.
  change (if DaysInYear (YearFromTime t) =? 366 then 1 else 0)
    with (InLeapYear t).
  pose proof (DayWithinYear_bounds t) as Hd.
  destruct (InLeapYear_spec t) as [Hl Hl'].
  unfold DateFromTime, MonthFromTime.
  assert (DayFromYear (YearFromTime t) = Day t - DayWithinYear t) as ->
    by (unfold DayWithinYear; lia).
  set (d := DayWithinYear t) in *. set (l := InLeapYear t) in *.
  clearbody d l.
  repeat match goal with
         | |- context [?a <? ?b] => destruct (Z.ltb_spec a b)
         end; cbn [month_start]; lia.
Qed.

Lemma time_fields (t : Z) :
  0 <= HourFromTime t <= 23 /\ 0 <= MinFromTime t <= 59 /\
  0 <= SecFromTime t <= 59 /\ 0 <= msFromTime t <= 999.
Proof.
  unfold HourFromTime, MinFromTime, SecFromTime, msFromTime.
  Z.div_mod_to_equations. lia.
Qed.

Lemma YearFromTime_bounds (t : Z) :
  valid_time t -> -999999 <= YearFromTime t <= 999999.
Proof.
  unfold valid_time, YearFromTime, YearFromDay, Day, msPerDay. intros H.
  set (d := t / 86400000).
  assert (-100000000 <= d <= 100000000) as Hd
    by (subst d; Z.div_mod_to_equations; lia).
  clearbody d.
  assert (-273791 <= 400 * d / 146097 <= 273791)
    by (Z.div_mod_to_equations; lia).
  destruct (_ <? _); [lia |]. destruct (_ <=? _); lia.
Qed.

Lemma digit_value_digit (d : Z) :
  0 <= d <= 9 -> digit_value (digit (Z.to_N d)) = Some d.
Proof.
  intros H. unfold digit_value, digit.
  replace ((48 <=? 48 + Z.to_N d)%N && (48 + Z.to_N d <=? 57)%N) with true.
  - f_equal. lia.
  - symmetry. apply andb_true_iff. split; apply N.leb_le; lia.
Qed.

Lemma read_digits_app (w1 w2 : nat) (acc : Z) (s : list N) :
  read_digits (w1 + w2) acc s =
  read_digits w1 acc s ≫= (fun ar => read_digits w2 (fst ar) (snd ar)).
Proof.
  revert acc s. induction w1 as [|w1 IH]; intros acc s; cbn.
  - reflexivity.
  - destruct s as [|c s]; [reflexivity |].
    destruct (digit_value c) as [d|]; cbn; [apply IH | reflexivity].
Qed.

(** Reading back [w] digits written by [pad]. *)
Lemma read_digits_pad (w : nat) (n acc : Z) (rest : list N) :
  0 <= n < 10 ^ Z.of_nat w ->
  read_digits w acc (pad w n ++ rest) = Some (acc * 10 ^ Z.of_nat w + n, rest).
Proof.
  revert n acc rest. induction w as [|w IH]; intros n acc rest Hn.
  - cbn. f_equal. f_equal. change (10 ^ Z.of_nat 0) with 1 in Hn. lia.
  - replace (S w) with (w + 1)%nat by lia.
    rewrite read_digits_app.
    replace (w + 1)%nat with (S w) by lia. cbn [pad].
    rewrite <- app_assoc.
    assert (10 ^ Z.of_nat (S w) = 10 * 10 ^ Z.of_nat w) as E
      by (rewrite Nat2Z.inj_succ, Z.pow_succ_r; lia).
    rewrite E in *.
    rewrite IH by (Z.div_mod_to_equations; lia).
    cbn [mbind option_bind fst snd app read_digits].
    rewrite digit_value_digit by (Z.div_mod_to_equations; lia).
    cbn [mbind option_bind]. f_equal. f_equal.
    Z.div_mod_to_equations. lia.
Qed.

Lemma expect_js (a : ascii) (rest : list N) :
  expect a (js (String a EmptyString) ++ rest) = Some rest.
Proof. unfold expect, js. cbn. now rewrite N.eqb_refl. Qed.

Lemma pad_head (w : nat) (n : Z) :
  0 <= n ->
  exists d u, pad (S w) n = digit (Z.to_N d) :: u /\ 0 <= d <= 9.
Proof.
  revert n. induction w as [|w IH]; intros n Hn.
  - exists (n mod 10), []. split; [reflexivity |].
    Z.div_mod_to_equations; lia.
  - destruct (IH (n / 10)) as [d [u [E Hd]]];
      [Z.div_mod_to_equations; lia |].
    exists d, (u ++ [digit (Z.to_N (n mod 10))]).
    split; [|exact Hd].
    change (pad (S (S w)) n)
      with (pad (S w) (n / 10) ++ [digit (Z.to_N (n mod 10))]).
    rewrite E. reflexivity.
Qed.

Lemma read_year_string (y : Z) (rest : list N) :
  -999999 <= y <= 999999 ->
  read_year (year_string y ++ rest) = Some (y, rest).
Proof.
  intros Hy. unfold year_string.
  destruct (Z.leb_spec 0 y) as [H0|H0]; cbn [andb].
  - destruct (Z.leb_spec y 9999) as [H1|H1].
    + destruct (pad_head 3 y H0) as [d [u [E Hd]]].
      unfold read_year. rewrite E. cbn [app expect].
      replace (digit (Z.to_N d) =? N_of_ascii "+")%N with false
        by (symmetry; apply N.eqb_neq; unfold digit; cbn; lia).
      replace (digit (Z.to_N d) =? N_of_ascii "-")%N with false
        by (symmetry; apply N.eqb_neq; unfold digit; cbn; lia).
      change (digit (Z.to_N d) :: u ++ rest)
        with ((digit (Z.to_N d) :: u) ++ rest).
      rewrite <- E, read_digits_pad by (cbn; lia). reflexivity.
    + unfold read_year. rewrite <- app_assoc, expect_js.
      rewrite read_digits_pad by (cbn; lia). reflexivity.
  - unfold read_year. rewrite <- app_assoc.
    change (expect "+" (js "-" ++ pad 6 (- y) ++ rest)) with (@None (list N)).
    rewrite expect_js, read_digits_pad by (cbn; lia).
    cbn. f_equal. f_equal. lia.
Qed.

(** Reading a timestamp back gives the time value it was written from. *)
Theorem instant_toISOString (t : Z) :
  valid_time t -> instant (toISOString t) = Some t.
Proof.
  intros Ht. unfold instant, toISOString.
  destruct (MakeDay_parts t) as [Hday [Hmo Hda]].
  destruct (time_fields t) as [Hh [Hmi [Hs Hms]]].
  rewrite read_year_string by (apply YearFromTime_bounds; exact Ht).
  cbn [mbind option_bind].
  rewrite expect_js. cbn [mbind option_bind].
  rewrite read_digits_pad by (cbn; lia). cbn [mbind option_bind].
  rewrite expect_js. cbn [mbind option_bind].
  rewrite read_digits_pad by (cbn; lia). cbn [mbind option_bind].
  rewrite expect_js. cbn [mbind option_bind].
  rewrite read_digits_pad by (cbn; lia). cbn [mbind option_bind].
  rewrite expect_js. cbn [mbind option_bind].
  rewrite read_digits_pad by (cbn; lia). cbn [mbind option_bind].
  rewrite expect_js. cbn [mbind option_bind].
  rewrite read_digits_pad by (cbn; lia). cbn [mbind option_bind].
  rewrite expect_js. cbn [mbind option_bind].
  rewrite read_digits_pad by (cbn; lia). cbn [mbind option_bind].
  change (expect "Z" (js "Z")) with (Some (@nil N)). cbn [mbind option_bind].
  rewrite !Z.mul_0_l, !Z.add_0_l, Hday. f_equal. apply time_parts.
Qed.

Close Scope Z_scope.

Example toISOString_epoch :
  toISOString 0 = js "1970-01-01T00:00:00.000Z".
Proof. reflexivity. Qed.

Example toISOString_leap_day :
  toISOString 1709251199999 = js "2024-02-29T23:59:59.999Z".
Proof. vm_compute. reflexivity. Qed.

Example toISOString_before_epoch :
  toISOString (-1) = js "1969-12-31T23:59:59.999Z".
Proof. vm_compute. reflexivity. Qed.

Example toISOString_last :
  toISOString 8640000000000000 = js "+275760-09-13T00:00:00.000Z".
Proof. vm_compute. reflexivity. Qed.

Example toISOString_first :
  toISOString (-8640000000000000) = js "-271821-04-20T00:00:00.000Z".
Proof. vm_compute. reflexivity. Qed.

Example toISOString_year_10000 :
  toISOString 253402300800000 = js "+010000-01-01T00:00:00.000Z".
Proof. vm_compute. reflexivity. Qed.

(** ** Timestamps of a session *)

Lemma clock_non_decreasing_cons (a : Z) (ts : list Z) :
  clock_non_decreasing (a :: ts) = true <->
  Forall (Z.le a) ts /\ clock_non_decreasing ts = true.
Proof.
  revert a. induction ts as [|b ts IH]; intros a.
  - cbn. split; [intros _; split; [constructor | reflexivity] | reflexivity].
  - change (clock_non_decreasing (a :: b :: ts))
      with ((a <=? b)%Z && clock_non_decreasing (b :: ts)).
    rewrite andb_true_iff, Z.leb_le. split.
    + intros [Hab Hb]. split; [|exact Hb].
      apply IH in Hb as [Hb _]. constructor; [exact Hab |].
      eapply Forall_impl; [exact Hb |]. cbn. intros; lia.
    + intros [Ha Hb]. split; [|exact Hb]. now inversion Ha.
Qed.

(** Leaving events out keeps the clock non-decreasing. *)
Lemma clock_non_decreasing_filter {A} (f : A -> Z) (g : A -> bool)
  (l : list A) :
  clock_non_decreasing (map f l) = true ->
  clock_non_decreasing (map f (List.filter g l)) = true.
Proof.
  induction l as [|x l IH]; [reflexivity |].
  cbn [map List.filter]. intros H.
  apply clock_non_decreasing_cons in H as [Hx Hl].
  destruct (g x); [|apply IH; exact Hl].
  cbn [map]. apply clock_non_decreasing_cons. split; [|apply IH; exact Hl].
  apply Forall_forall. intros z Hz.
  rewrite Forall_forall in Hx. apply Hx.
  apply list_elem_of_In in Hz. apply list_elem_of_In.
  apply in_map_iff in Hz as [y [<- Hy]]. apply in_map.
  apply List.filter_In in Hy as [Hy _]. exact Hy.
Qed.

(** The instant of the record an append writes for a record without a
    [submittedAt] of its own is the clock reading of that append. *)
Lemma written_instant (x : env * gmap (list N) (list N)) :
  valid_time (now (fst x)) -> snd x !! js "submittedAt" = None ->
  submittedAt (written x) = Some (toISOString (now (fst x))) /\
  submittedAt (written x) ≫= instant = Some (now (fst x)).
Proof.
  intros Hv Hs. unfold written. rewrite entry_submittedAt, Hs.
  cbn [from_option id mbind option_bind].
  split; [reflexivity | apply instant_toISOString; exact Hv].
Qed.

Lemma chronological_written (l : list (env * gmap (list N) (list N))) :
  Forall (fun x => valid_time (now (fst x)) /\
                   snd x !! js "submittedAt" = None) l ->
  chronological (map written l) =
  clock_non_decreasing (map (fun x => now (fst x)) l).
Proof.
  induction 1 as [|x l [Hx1 Hx2] Hl IH]; [reflexivity |].
  destruct Hl as [|y l [Hy1 Hy2] Hl]; [reflexivity |].
  cbn [map] in *.
  change (chronological (written x :: written y :: map written l))
    with (match submittedAt (written x) ≫= instant,
                submittedAt (written y) ≫= instant with
          | Some ta, Some tb =>
              (ta <=? tb)%Z && chronological (written y :: map written l)
          | _, _ => false
          end).
  rewrite (proj2 (written_instant x Hx1 Hx2)).
  rewrite (proj2 (written_instant y Hy1 Hy2)).
  rewrite IH. reflexivity.
Qed.

(** C9, as the code has it: when no appended record has a [submittedAt]
    field of its own and the wall clock read at each append is a time
    value that is not before the one read at the append before it, the
    records the session adds to the stored sequence carry the ISO
    string of the clock reading of their append, and their timestamps
    are non-decreasing.  The records are those of the appends whose
    storage works; they follow what was stored before, which is read
    back as [JSON.stringify] wrote it: as it was when there was no
    write or when it holds no infinite number and no negative zero. *)
Theorem submittedAt_non_decreasing
  (rs : list (env * gmap (list N) (list N))) (p : page) :
  Forall (fun x => valid_time (now (fst x)) /\
                   snd x !! js "submittedAt" = None) rs ->
  clock_non_decreasing (map (fun x => now (fst x)) rs) = true ->
  (forall old : list json,
      stored p = Some old ->
      stored (snd (appends rs p)) =
        Some (kept (List.filter (fun x => works (fst x)) rs) old
              ++ map written (List.filter (fun x => works (fst x)) rs)) /\
      (Forall plain old ->
       stored (snd (appends rs p)) =
         Some (old
               ++ map written (List.filter (fun x => works (fst x)) rs)))) /\
  (stored p = None -> stored (snd (appends rs p)) = None) /\
  Forall (fun x => submittedAt (written x)
                   = Some (toISOString (now (fst x)))) rs /\
  chronological (map written (List.filter (fun x => works (fst x)) rs)) = true.
Proof.
  intros Hrs Hclock. destruct (appends_spec rs p) as [_ ->].
  split; [|split; [|split]].
  - intros old ->. cbn [fmap option_fmap option_map].
    split; [reflexivity |]. intros Hp. now rewrite (kept_plain _ old Hp).
  - intros ->. reflexivity.
  - eapply Forall_impl; [exact Hrs |]. cbn.
    intros x [Hv Hs]. apply written_instant; assumption.
  - rewrite chronological_written.
    + apply clock_non_decreasing_filter. exact Hclock.
    + apply Forall_forall. intros x Hx.
      rewrite Forall_forall in Hrs. apply Hrs.
      apply list_elem_of_In in Hx. apply list_elem_of_In.
      apply List.filter_In in Hx as [Hx _]. exact Hx.
Qed.

Lemma submittedAt_non_decreasing_witness :
  chronological
    (map written
       (List.filter (fun x => works (fst x))
          [(env0, scenarioA); (env_full, scenarioA); (env1, scenarioA)]))
  = true /\
  stored (snd (appends
                 [(env0, scenarioA); (env_full, scenarioA); (env1, scenarioA)]
                 page0)) =
    Some [JObject (JString <$> entry env0 scenarioA);
          JObject (JString <$> entry env1 scenarioA)].
Proof.
  destruct (submittedAt_non_decreasing
              [(env0, scenarioA); (env_full, scenarioA); (env1, scenarioA)]
              page0) as [H1 [_ [_ H2]]].
  - repeat constructor; cbn; unfold valid_time; cbn; lia.
  - reflexivity.
  - split; [exact H2 |].
    destruct (H1 [] eq_refl) as [_ H3]. exact (H3 (List.Forall_nil plain)).
Defined.

(** C9, as the specification words it, fails: the clock does not run
    backwards, and the second stored record carries an earlier
    [submittedAt] than the first, because each record brought its
    own. *)
Lemma submittedAt_non_decreasing_counterexample :
  validate recordLate = [] /\ validate recordEarly = [] /\
  clock_non_decreasing
    (map (fun x : env * gmap (list N) (list N) => now (fst x))
       [(env0, recordLate); (env1, recordEarly)]) = true /\
  stored (snd (appends [(env0, recordLate); (env1, recordEarly)] page0)) =
    Some [record recordLate; record recordEarly] /\
  submittedAt (record recordLate) = Some (js "2030-01-01T00:00:00.000Z") /\
  submittedAt (record recordEarly) = Some (js "2020-01-01T00:00:00.000Z") /\
  chronological [record recordLate; record recordEarly] = false.
Proof.
  repeat split; vm_compute; reflexivity.
Qed.

(** * Further properties of the contact form *)

(** ** Acceptance, read off the form data *)

Lemma validate_nil (obj : gmap (list N) (list N)) :
  validate obj = [] <->
  name_bad obj = false /\ email_bad obj = false /\
  phone_bad obj = false /\ message_bad obj = false.
Proof.
  rewrite validate_checks. unfold checks. cbn [List.filter fst].
  destruct (name_bad obj), (email_bad obj), (phone_bad obj),
    (message_bad obj); cbn [map snd]; split; intros H;
    try discriminate H;
    try (destruct H as (H1 & H2 & H3 & H4); discriminate);
    repeat split; reflexivity.
Qed.

Lemma truthy_true (o : option (list N)) :
  truthy o = true <-> exists v, o = Some v /\ v <> [].
Proof.
  split.
  - destruct o as [[|c v]|]; cbn; intros H; try discriminate H.
    eexists. split; [reflexivity | discriminate].
  - intros (v & -> & Hv). apply truthy_Some. exact Hv.
Qed.

Lemma name_ok (obj : gmap (list N) (list N)) :
  name_bad obj = false <-> exists n, obj !! js "name" = Some n /\ n <> [].
Proof. unfold name_bad. rewrite negb_false_iff. apply truthy_true. Qed.

Lemma email_ok (obj : gmap (list N) (list N)) :
  email_bad obj = false <->
  exists e, obj !! js "email" = Some e /\ matches email_re e.
Proof.
  unfold email_bad. rewrite orb_false_iff, !negb_false_iff, truthy_true.
  split.
  - intros [[e [He _]] Ht]. rewrite He in Ht. cbn in Ht.
    exists e. split; [exact He | apply test_spec; exact Ht].
  - intros [e [He Hm]]. rewrite He. cbn [from_option id]. split.
    + exists e. split; [reflexivity |].
      intros ->. exact (email_re_not_nil Hm).
    + apply test_spec. exact Hm.
Qed.

Lemma length_ok (o : option (list N)) (k : N) :
  (0 < k)%N ->
  (negb (truthy o) || (N.of_nat (length (default [] o)) <? k)%N = false) <->
  exists v, o = Some v /\ (N.to_nat k <= length v)%nat.
Proof.
  intros Hk. rewrite orb_false_iff, negb_false_iff, truthy_true, N.ltb_ge.
  split.
  - intros [[v [-> _]] H]. cbn in H. exists v. split; [reflexivity | lia].
  - intros [v [-> H]]. cbn [from_option id]. split; [|lia].
    exists v. split; [reflexivity |]. destruct v; cbn in H; [lia | discriminate].
Qed.

Lemma collect_field (fdata : list (list N * list N)) (k : list N) :
  k <> js "__proto__" ->
  collect fdata !! k = trim <$> last_value k fdata.
Proof.
  intros Hk. rewrite collect_lookup.
  destruct (decide (k = js "__proto__")); [congruence | reflexivity].
Qed.

Lemma fmap_trim_Some (o : option (list N)) (P : list N -> Prop) :
  (exists v, trim <$> o = Some v /\ P v) <->
  (exists u, o = Some u /\ P (trim u)).
Proof.
  destruct o as [u|]; cbn; split.
  - intros (v & [= <-] & H). eauto.
  - intros (u' & [= <-] & H). eauto.
  - intros (v & H & _). discriminate H.
  - intros (u' & H & _). discriminate H.
Qed.

(** X1: a submission is accepted exactly when the form data has a name
    that is not empty once trimmed, an email whose trimmed value
    matches the pattern, a phone of at least 6 characters once trimmed
    and a message of at least 10 characters once trimmed; of several
    controls with one of these names the last one counts. *)
Theorem submission_accepted_iff (fdata : list (list N * list N)) :
  validate (collect fdata) = [] <->
  exists n e p m : list N,
    last_value (js "name") fdata = Some n /\ trim n <> [] /\
    last_value (js "email") fdata = Some e /\ matches email_re (trim e) /\
    last_value (js "phone") fdata = Some p /\ (6 <= length (trim p))%nat /\
    last_value (js "message") fdata = Some m /\ (10 <= length (trim m))%nat.
Proof.
  rewrite validate_nil, name_ok, email_ok.
  unfold phone_bad, message_bad.
  rewrite (length_ok (collect fdata !! js "phone") 6) by lia.
  rewrite (length_ok (collect fdata !! js "message") 10) by lia.
  rewrite !collect_field by js_neq.
  rewrite (fmap_trim_Some _ (fun v => v <> [])).
  rewrite (fmap_trim_Some _ (matches email_re)).
  rewrite (fmap_trim_Some _ (fun v => (N.to_nat 6 <= length v)%nat)).
  rewrite (fmap_trim_Some _ (fun v => (N.to_nat 10 <= length v)%nat)).
  change (N.to_nat 6) with 6%nat. change (N.to_nat 10) with 10%nat.
  split.
  - intros ((n & Hn & Hn') & (e & He & He') & (p & Hp & Hp') & (m & Hm & Hm')).
    exists n, e, p, m. repeat split; assumption.
  - intros (n & e & p & m & Hn & Hn' & He & He' & Hp & Hp' & Hm & Hm').
    repeat split; eauto.
Qed.

(** X2: a run of the handler changes the storage only when the
    submission passes validation, the storage works and the stored
    value reads as a sequence; it then writes that sequence back with
    exactly the entry of this submission at its end, the earlier items
    as [JSON.stringify] writes them: unchanged when they hold no
    infinite number and no negative zero. *)
Theorem storage_changes_only_on_accept (e : env) (p : page) :
  localStorage (snd (on_submit e p)) <> localStorage p ->
  validate (obj_of p) = [] /\ storage e = Works /\
  exists old : list json,
    stored p = Some old /\
    stored (snd (on_submit e p)) =
      Some (map reread old ++ [JObject (JString <$> entry e (obj_of p))]) /\
    (Forall plain old ->
     stored (snd (on_submit e p)) =
       Some (old ++ [JObject (JString <$> entry e (obj_of p))])).
Proof.
  rewrite on_submit_append.
  destruct (validate (obj_of p)) as [|m errors] eqn:Hv; [|congruence].
  rewrite append_spec. cbn [snd].
  destruct (storage e) eqn:Hw; destruct (stored p) as [old|] eqn:Hs;
    try congruence.
  intros _. split; [reflexivity |]. split; [reflexivity |].
  exists old. split; [reflexivity |].
  rewrite (on_submit_stored e p old Hv Hw Hs).
  split; [reflexivity |].
  intros Hp. rewrite (map_reread_plain old Hp). reflexivity.
Qed.

Lemma storage_changes_only_on_accept_witness :
  validate (obj_of (with_inputs formA page0)) = [] /\ storage env0 = Works /\
  stored (snd (on_submit env0 (with_inputs formA page0))) =
    Some [JObject (JString <$> entry env0 (obj_of (with_inputs formA page0)))].
Proof.
  destruct (storage_changes_only_on_accept env0 (with_inputs formA page0))
    as [H1 [H2 [old [H3 [_ H4]]]]].
  - intros H. apply (f_equal (fun ls => ls !! key)) in H.
    vm_compute in H. discriminate H.
  - split; [exact H1 |]. split; [exact H2 |].
    assert (old = []) as -> by (vm_compute in H3; congruence).
    exact (H4 (List.Forall_nil plain)).
Defined.

(** ** Sessions *)

Lemma session_cons (values : list (list N)) (e : env)
  (steps : list (list (list N) * env)) (p : page) :
  session ((values, e) :: steps) p = session steps (submitted values e p).
Proof. reflexivity. Qed.

(** What one submission does to the stored value. *)
Lemma submitted_storage (values : list (list N)) (e : env) (p : page) :
  localStorage (submitted values e p) = localStorage p \/
  exists old obj,
    validate obj = [] /\ stored p = Some old /\
    localStorage (submitted values e p) =
      <[key := Serialized
                 (JArray (map reread old ++ [record (entry e obj)]))]>
        (localStorage p).
Proof.
  unfold submitted. rewrite on_submit_append.
  set (q := with_inputs (fill values (inputs p)) p).
  assert (stored q = stored p) as Hq by reflexivity.
  assert (localStorage q = localStorage p) as Hl by reflexivity.
  destruct (validate (obj_of q)) as [|m errors] eqn:Hv; [|left; exact Hl].
  rewrite append_spec. cbn [snd]. rewrite Hq.
  destruct (storage e); destruct (stored p) as [old|];
    try (left; exact Hl).
  right. exists old, (obj_of q). auto.
Qed.

Lemma stored_insert (v : json) (ls : gmap (list N) text) (p : page) :
  stored (with_localStorage (<[key := Serialized v]> ls) p) =
  match v with JArray items => Some items | _ => None end.
Proof.
  unfold stored, with_localStorage. cbn [localStorage].
  rewrite lookup_insert_eq. reflexivity.
Qed.

Lemma stored_localStorage (p q : page) :
  localStorage p = localStorage q -> stored p = stored q.
Proof. unfold stored. intros ->. reflexivity. Qed.

(** X3: the stored sequence only grows at its end.  Whatever the user
    types and however often the form is submitted, whether or not a run
    of the listener throws, the items that were stored before stay in
    place, as [JSON.stringify] writes them once a record is added:
    unchanged when they hold no infinite number and no negative zero.
    At most one record is added per submission, and every record added
    is an object of strings, the entry of a field map that passed
    validation. *)
Theorem session_append_only (steps : list (list (list N) * env))
  (p : page) (old : list json) :
  stored p = Some old ->
  exists news : list json,
    stored (snd (session steps p)) = Some (kept news old ++ news) /\
    (Forall plain old ->
     stored (snd (session steps p)) = Some (old ++ news)) /\
    (length news <= length steps)%nat /\
    Forall (fun r => exists e obj,
                In e (map snd steps) /\ validate obj = [] /\
                r = JObject (JString <$> entry e obj)) news.
Proof.
  intros Hold.
  assert (exists news : list json,
             stored (snd (session steps p)) = Some (kept news old ++ news) /\
             (length news <= length steps)%nat /\
             Forall (fun r => exists e obj,
                         In e (map snd steps) /\ validate obj = [] /\
                         r = record (entry e obj)) news)
    as (news & H1 & H2 & H3).
  { revert p old Hold.
    induction steps as [|[values e] steps IH]; intros p old Hold.
    - exists []. cbn. rewrite app_nil_r. split; [exact Hold |].
      split; [lia | constructor].
    - rewrite session_cons.
      destruct (submitted_storage values e p)
        as [Hsame | (old' & obj & Hv & Hs & Hnew)].
      + destruct (IH (submitted values e p) old) as (news & H1 & H2 & H3).
        { rewrite (stored_localStorage _ p Hsame). exact Hold. }
        exists news. split; [exact H1 |]. split; [cbn; lia |].
        eapply Forall_impl; [exact H3 |]. cbn.
        intros r (e' & obj' & Hin & Hv' & ->). exists e', obj'. auto.
      + rewrite Hold in Hs. injection Hs as <-.
        destruct (IH (submitted values e p)
                    (map reread old ++ [record (entry e obj)]))
          as (news & H1 & H2 & H3).
        { unfold stored. rewrite Hnew, lookup_insert_eq. reflexivity. }
        exists (record (entry e obj) :: news).
        rewrite kept_appended in H1.
        split; [rewrite H1, <- app_assoc; reflexivity |].
        split; [cbn; lia |].
        constructor.
        * exists e, obj. cbn. auto.
        * eapply Forall_impl; [exact H3 |]. cbn.
          intros r (e' & obj' & Hin & Hv' & ->). exists e', obj'. auto. }
  exists news. split; [exact H1 |].
  split; [intros Hp; rewrite H1, (kept_plain news old Hp); reflexivity |].
  split; [exact H2 | exact H3].
Qed.

Lemma session_append_only_witness :
  exists news : list json,
    stored (snd (session [(valuesA, env0); (valuesB, env1); (valuesA, env1)]
                   page_kontak)) = Some ([] ++ news) /\
    (length news <= 3)%nat.
Proof.
  destruct (session_append_only
              [(valuesA, env0); (valuesB, env1); (valuesA, env1)]
              page_kontak [] eq_refl) as (news & _ & H1 & H2 & _).
  exists news. split; [exact (H1 (List.Forall_nil plain)) | exact H2].
Defined.

(** X4: once the stored value does not read as a sequence (it is not
    JSON, or JSON that is not an array), no submission of the session
    is ever saved: the storage stays exactly as it was. *)
Theorem session_after_corruption (steps : list (list (list N) * env))
  (p : page) :
  stored p = None ->
  localStorage (snd (session steps p)) = localStorage p.
Proof.
  revert p. induction steps as [|[values e] steps IH]; intros p Hs;
    [reflexivity |].
  rewrite session_cons.
  destruct (submitted_storage values e p)
    as [Hsame | (old' & obj & _ & Hs' & _)]; [|congruence].
  rewrite IH; [exact Hsame |].
  rewrite (stored_localStorage _ p Hsame). exact Hs.
Qed.

Lemma session_after_corruption_witness :
  localStorage
    (snd (session [(valuesA, env0); (valuesA, env1)]
            (with_inputs (inputs page_kontak) page_corrupt))) =
  localStorage page_corrupt.
Proof.
  apply (session_after_corruption [(valuesA, env0); (valuesA, env1)]
           (with_inputs (inputs page_kontak) page_corrupt)).
  reflexivity.
Defined.

(** X5: the handler reads and writes one key only: whatever the session
    does, the value stored under any other key of the origin is what it
    was. *)
Theorem session_other_keys (steps : list (list (list N) * env))
  (p : page) (k : list N) :
  k <> key ->
  localStorage (snd (session steps p)) !! k = localStorage p !! k.
Proof.
  intros Hk. revert p.
  induction steps as [|[values e] steps IH]; intros p; [reflexivity |].
  rewrite session_cons, IH.
  destruct (submitted_storage values e p)
    as [-> | (old' & obj & _ & _ & ->)]; [reflexivity |].
  apply lookup_insert_ne. congruence.
Qed.

Lemma session_other_keys_witness :
  localStorage (snd (session [(valuesA, env0)] page_shared)) !! js "theme" =
  Some (Malformed (js "dark")).
Proof.
  rewrite (session_other_keys [(valuesA, env0)] page_shared (js "theme"));
    [reflexivity | js_neq].
Defined.

Example session_example :
  (length <$> stored (snd (session [(valuesA, env0); (valuesB, env1);
                                    (valuesA, env_full); (valuesA, env1)]
                             page_kontak))) = Some 2%nat.
Proof. vm_compute. reflexivity. Qed.

(** ** Resubmitting after the reset *)

Lemma last_value_In_inv (k v : list N) (fdata : list (list N * list N)) :
  last_value k fdata = Some v -> In (k, v) fdata.
Proof.
  induction fdata as [|[k0 v0] fdata IH]; cbn [last_value In];
    [discriminate |].
  destruct (last_value k fdata) as [v'|].
  - intros [= ->]. right. apply IH. reflexivity.
  - destruct (decide (k0 = k)) as [->|]; [|discriminate].
    intros [= ->]. left. reflexivity.
Qed.

Lemma FormData_values (form : list input) (k v : list N) :
  In (k, v) (FormData form) ->
  exists inp,
    In inp form /\ scalar (inp_name inp) = k /\ scalar (inp_value inp) = v.
Proof.
  unfold FormData. intros H. apply in_map_iff in H as (inp & [= <- <-] & H).
  apply list_elem_of_In, list_elem_of_filter in H as [_ H].
  exists inp. split; [apply list_elem_of_In; exact H | auto].
Qed.

Lemma validate_name_first (obj : gmap (list N) (list N)) :
  name_bad obj = true ->
  exists rest : list (list N),
    validate obj = js "Nama wajib diisi." :: rest.
Proof.
  intros H. rewrite validate_checks. unfold checks.
  cbn [List.filter fst]. rewrite H. cbn [map snd]. eauto.
Qed.

(** X6: when the default value of every control is empty and the form
    exposes no element under the name [reset], the form an accepted
    submission leaves behind does not pass validation: a second submit
    without retyping is rejected, the toast shows the name message
    first, and nothing is stored, so a double submit does not store a
    record twice. *)
Theorem resubmit_after_reset (e1 e2 : env) (p : page) :
  Forall (fun inp => inp_default inp = []) (inputs p) ->
  validate (obj_of p) = [] ->
  ~ exposes (js "reset") p ->
  (exists rest : list (list N),
      validate (obj_of (snd (on_submit e1 p))) =
        js "Nama wajib diisi." :: rest /\
      toast (snd (on_submit e2 (snd (on_submit e1 p)))) =
        {| display := js "block"; background := js "#fff6f6";
           color := js "#8a1f1f";
           textContent :=
             js "Gagal kirim: Nama wajib diisi."
             ++ concat (map (fun x => js " " ++ x) rest) |}) /\
  localStorage (snd (on_submit e2 (snd (on_submit e1 p)))) =
    localStorage (snd (on_submit e1 p)).
Proof.
  intros Hd Hv Hr. apply not_exposes in Hr.
  assert (inputs (snd (on_submit e1 p)) = map reset_input (inputs p)) as Hin.
  { rewrite on_submit_spec, Hv. cbv zeta. rewrite Hr.
    destruct (shadowed (js "appendChild") p); reflexivity. }
  assert (name_bad (obj_of (snd (on_submit e1 p))) = true) as Hname.
  { unfold name_bad, obj_of. rewrite Hin.
    apply negb_true_iff, truthy_false.
    rewrite collect_field by js_neq.
    destruct (last_value _ _) as [v|] eqn:Hl; [|reflexivity].
    apply last_value_In_inv, FormData_values in Hl
      as (inp & Hinp & _ & <-).
    apply in_map_iff in Hinp as (inp0 & <- & Hinp0).
    rewrite Forall_forall in Hd.
    cbn. rewrite (Hd inp0) by (apply list_elem_of_In; exact Hinp0).
    reflexivity. }
  destruct (validate_name_first _ Hname) as [rest Hrest].
  rewrite (on_submit_spec e2), Hrest. cbn [snd].
  split; [|reflexivity].
  exists rest. split; [reflexivity |].
  unfold rejected, error_status. cbn [toast]. rewrite join_space.
  reflexivity.
Qed.

Lemma resubmit_after_reset_witness :
  localStorage (snd (on_submit env1 (snd (on_submit env0 page_kontak)))) =
  localStorage (snd (on_submit env0 page_kontak)).
Proof.
  apply (resubmit_after_reset env0 env1 page_kontak).
  - repeat constructor.
  - vm_compute. reflexivity.
  - intros H. apply shadowed_spec in H. vm_compute in H. discriminate H.
Defined.

(** On a form with a control named [reset] the first submit throws
    before the form is reset: the values stay, and the second submit
    stores the record once more. *)
Example resubmit_without_reset :
  fst (on_submit env0 (with_inputs form_reset_named page0)) = inl TypeError /\
  (length <$> stored (snd (on_submit env0
                             (with_inputs form_reset_named page0)))) =
    Some 1%nat /\
  (length <$> stored (snd (on_submit env1
                             (snd (on_submit env0
                                     (with_inputs form_reset_named page0))))))
    = Some 2%nat.
Proof. repeat split; vm_compute; reflexivity. Qed.

(** ** The names the normalizer assigns *)














(** ** The e-mail check *)

(** X8: the e-mail check passes exactly for the strings made of a local
    part, [@], a domain part, a dot and a last part, the three parts
    being non-empty and free of white space and of [@]. *)
Theorem email_test_iff (s : list N) :
  test email_re s = true <->
  exists a b c : list N,
    s = a ++ js "@" ++ b ++ js "." ++ c /\
    a <> [] /\ b <> [] /\ c <> [] /\
    forallb not_space_at (a ++ b ++ c) = true.
Proof. rewrite test_spec. apply email_re_spec. Qed.

Lemma not_space_at_part (l : list N) :
  forallb not_space_at l = true ->
  count_occ N.eq_dec l 64 = 0%nat /\
  forallb (fun c => negb (is_space c)) l = true.
Proof.
  induction l as [|c l IH]; cbn [forallb count_occ]; [split; reflexivity |].
  intros H. apply andb_true_iff in H as [Hc Hl].
  destruct (IH Hl) as [IH1 IH2]. unfold not_space_at in Hc.
  apply andb_true_iff in Hc as [Hc1 Hc2]. rewrite Hc1, IH2.
  split; [|reflexivity].
  destruct (N.eq_dec c 64) as [->|_]; [discriminate Hc2 | exact IH1].
Qed.

(** X9: a string that passes the e-mail check has exactly one [@], no
    white space, a dot, and at least five characters. *)
Theorem email_shape (s : list N) :
  test email_re s = true ->
  count_occ N.eq_dec s 64 = 1%nat /\
  forallb (fun c => negb (is_space c)) s = true /\
  In 46%N s /\
  (5 <= length s)%nat.
Proof.
  intros H. apply test_spec, email_re_spec in H
    as (a & b & c & -> & Ha & Hb & Hc & Hall).
  rewrite !forallb_app, !andb_true_iff in Hall.
  destruct Hall as (Ha' & Hb' & Hc').
  apply not_space_at_part in Ha' as [Ha1 Ha2].
  apply not_space_at_part in Hb' as [Hb1 Hb2].
  apply not_space_at_part in Hc' as [Hc1 Hc2].
  split; [|split; [|split]].
  - rewrite !count_occ_app, Ha1, Hb1, Hc1. reflexivity.
  - rewrite !forallb_app, Ha2, Hb2, Hc2. reflexivity.
  - apply in_or_app. right. apply in_or_app. right.
    apply in_or_app. right. left. reflexivity.
  - rewrite !length_app.
    destruct a; [congruence |]. destruct b; [congruence |].
    destruct c; [congruence |]. cbn. lia.
Qed.

Lemma email_shape_witness :
  count_occ N.eq_dec (js "ana@mail.com") 64 = 1%nat.
Proof. apply (email_shape (js "ana@mail.com")). reflexivity. Defined.

Example email_examples :
  test email_re (js "a@b.c") = true /\
  test email_re (js "a@b") = false /\
  test email_re (js "a@@b.c") = false /\
  test email_re (js "a b@c.d") = false /\
  test email_re (js "a@b.") = false /\
  test email_re (js "a@.b") = false /\
  test email_re (js "a@b.c.d") = true /\
  test email_re (js "") = false.
Proof. repeat split; reflexivity. Qed.

(** ** The values of the field map *)

(** X10: every value of the field map built from the form data is the
    trimmed value of a control of that name, so it neither starts nor
    ends with white space, and trimming it again changes nothing. *)
Theorem field_map_trimmed (fdata : list (list N * list N)) (k v : list N) :
  collect fdata !! k = Some v ->
  (exists raw, In (k, raw) fdata /\ v = trim raw) /\
  trim v = v /\
  match v with [] => True | c :: _ => is_space c = false end /\
  match rev v with [] => True | c :: _ => is_space c = false end.
Proof.
  intros H. pose proof (collect_trimmed fdata k v H) as Ht.
  rewrite collect_lookup in H.
  destruct (decide (k = js "__proto__")); [discriminate H |].
  destruct (last_value k fdata) as [raw|] eqn:El; [|discriminate H].
  injection H as <-.
  split; [exists raw; split; [apply last_value_In_inv; exact El | reflexivity] |].
  split; [exact Ht |].
  apply (trim_spec raw).
Qed.

Lemma field_map_trimmed_witness :
  trim (js "Ana") = js "Ana".
Proof.
  apply (field_map_trimmed (FormData formA) (js "name") (js "Ana")).
  reflexivity.
Defined.

(** * The other blocks of the script *)

(** ** Class lists *)

Lemma classList_add_elem (token c : list N) (l : list (list N)) :
  c ∈ classList_add token l <-> c = token \/ c ∈ l.
Proof.
  unfold classList_add. destruct (decide (token ∈ l)) as [Hin|Hin].
  - split; [auto | intros [-> | H]; assumption].
  - rewrite elem_of_app, list_elem_of_singleton. tauto.
Qed.

Lemma classList_remove_elem (token c : list N) (l : list (list N)) :
  c ∈ classList_remove token l <-> c <> token /\ c ∈ l.
Proof. unfold classList_remove. rewrite list_elem_of_filter. tauto. Qed.

Lemma classList_add_idem (token : list N) (l : list (list N)) :
  classList_add token (classList_add token l) = classList_add token l.
Proof.
  unfold classList_add at 1.
  destruct (decide _) as [_|H]; [reflexivity |].
  exfalso. apply H, classList_add_elem. left. reflexivity.
Qed.

Lemma classList_remove_absent (token : list N) (l : list (list N)) :
  token ∉ l -> classList_remove token l = l.
Proof.
  intros H. unfold classList_remove.
  induction l as [|c l IH]; [reflexivity |].
  apply not_elem_of_cons in H as [Hc Hl].
  rewrite filter_cons_True by congruence. rewrite IH by exact Hl.
  reflexivity.
Qed.

Lemma classList_remove_idem (token : list N) (l : list (list N)) :
  classList_remove token (classList_remove token l) = classList_remove token l.
Proof.
  apply classList_remove_absent. rewrite classList_remove_elem. tauto.
Qed.

Lemma classList_remove_add (token : list N) (l : list (list N)) :
  token ∉ l -> classList_remove token (classList_add token l) = l.
Proof.
  intros H. unfold classList_add.
  destruct (decide _) as [Hin|_]; [contradiction |].
  unfold classList_remove. rewrite filter_app.
  fold (classList_remove token l). rewrite classList_remove_absent by exact H.
  rewrite filter_cons_False by (intros Hn; apply Hn; reflexivity).
  rewrite filter_nil. apply app_nil_r.
Qed.

(** ** The active link *)

Lemma split_not_nil (s : list N) : ActiveLink.split s <> [].
Proof.
  induction s as [|c s IH]; cbn; [discriminate |].
  destruct (c =? 47)%N; [discriminate |].
  destruct (ActiveLink.split s); discriminate.
Qed.

(** Joining the pieces with slashes gives the string back. *)
Lemma join_split (s : list N) : join [47%N] (ActiveLink.split s) = s.
Proof.
  induction s as [|c s IH]; [reflexivity |].
  cbn [ActiveLink.split]. pose proof (split_not_nil s) as Hne.
  destruct (N.eqb_spec c 47) as [->|Hc].
  - destruct (ActiveLink.split s) as [|x xs]; [congruence |].
    change (join [47%N] ([] :: x :: xs))
      with ([] ++ [47%N] ++ join [47%N] (x :: xs)).
    rewrite IH. reflexivity.
  - destruct (ActiveLink.split s) as [|x xs]; [congruence |].
    destruct xs as [|y ys].
    + change (x = s) in IH. subst s. reflexivity.
    + change (join [47%N] ((c :: x) :: y :: ys))
        with (c :: join [47%N] (x :: y :: ys)).
      rewrite IH. reflexivity.
Qed.

Lemma split_no_slash (s : list N) :
  Forall (fun x => 47%N ∉ x) (ActiveLink.split s).
Proof.
  induction s as [|c s IH]; cbn [ActiveLink.split].
  - constructor; [apply not_elem_of_nil | constructor].
  - destruct (N.eqb_spec c 47) as [->|Hc].
    + constructor; [apply not_elem_of_nil | exact IH].
    + destruct (ActiveLink.split s) as [|x xs]; [repeat constructor |].
      * intros H. apply list_elem_of_singleton in H. congruence.
      * apply Forall_cons in IH as [Hx Hxs]. constructor; [|exact Hxs].
        intros H. apply elem_of_cons in H as [H|H]; [congruence | auto].
Qed.

Lemma last_join (l : list (list N)) :
  l <> [] ->
  exists seg dir,
    last l = Some seg /\ join [47%N] l = dir ++ seg /\
    (dir = [] \/ last dir = Some 47%N).
Proof.
  induction l as [|x l IH]; [congruence |]. intros _.
  destruct l as [|y l].
  - exists x, []. cbn. auto.
  - destruct IH as (seg & dir & H1 & H2 & H3); [discriminate |].
    exists seg, (x ++ 47%N :: dir). split; [exact H1 |]. split.
    + change (join [47%N] (x :: y :: l))
        with (x ++ [47%N] ++ join [47%N] (y :: l)).
      rewrite H2, <- app_assoc. reflexivity.
    + right. destruct H3 as [-> | H3].
      * apply last_snoc.
      * rewrite last_app, last_cons, H3. reflexivity.
Qed.

(** What [s.split('/').pop()] is: the part of [s] after its last
    slash. *)
Lemma last_split (s : list N) :
  exists seg dir,
    last (ActiveLink.split s) = Some seg /\ s = dir ++ seg /\
    (47%N ∉ seg) /\ (dir = [] \/ last dir = Some 47%N).
Proof.
  destruct (last_join (ActiveLink.split s) (split_not_nil s))
    as (seg & dir & H1 & H2 & H3).
  rewrite join_split in H2.
  exists seg, dir. split; [exact H1 |]. split; [exact H2 |].
  split; [|exact H3].
  pose proof (split_no_slash s) as Hf. rewrite Forall_forall in Hf.
  apply Hf. apply last_Some_elem_of. exact H1.
Qed.

Lemma split_snoc_slash (d : list N) :
  ActiveLink.split (d ++ [47%N]) = ActiveLink.split d ++ [[]].
Proof.
  induction d as [|c d IH]; [reflexivity |].
  cbn [app ActiveLink.split]. rewrite IH.
  destruct (c =? 47)%N; [reflexivity |].
  pose proof (split_not_nil d) as Hne.
  destruct (ActiveLink.split d); [congruence | reflexivity].
Qed.

Lemma current_not_nil (pathname : list N) : ActiveLink.current pathname <> [].
Proof.
  unfold ActiveLink.current.
  destruct (last (ActiveLink.split pathname)) as [[|c seg]|]; cbn;
    discriminate.
Qed.

(** X11: the file name the block takes from the address is the part of
    the path after its last slash, and [index.html] when that part is
    empty (the path of a directory); it is never empty and has no
    slash. *)
Theorem current_spec (pathname : list N) :
  (exists seg dir,
      pathname = dir ++ seg /\ (47%N ∉ seg) /\
      (dir = [] \/ last dir = Some 47%N) /\
      ActiveLink.current pathname =
        (if decide (seg = []) then js "index.html" else seg)) /\
  ActiveLink.current pathname <> [] /\
  47%N ∉ ActiveLink.current pathname.
Proof.
  destruct (last_split pathname) as (seg & dir & H1 & H2 & H3 & H4).
  assert (ActiveLink.current pathname =
          if decide (seg = []) then js "index.html" else seg) as E.
  { unfold ActiveLink.current. rewrite H1.
    destruct seg; reflexivity. }
  split; [exists seg, dir; auto |].
  split; [apply current_not_nil |].
  rewrite E. destruct (decide (seg = [])); [|exact H3].
  vm_compute. intros H.
  repeat (apply elem_of_cons in H as [H|H]; [discriminate H |]).
  apply elem_of_nil in H. exact H.
Qed.

Lemma is_active_spec (pathname : list N) (file : option (list N)) :
  ActiveLink.is_active (ActiveLink.current pathname) file =
  bool_decide (file = Some (ActiveLink.current pathname)).
Proof.
  unfold ActiveLink.is_active.
  rewrite (bool_decide_eq_false_2 (ActiveLink.current pathname = []))
    by apply current_not_nil.
  cbn [andb]. apply orb_false_r.
Qed.

(** X12: after the block a link has the class [active-link] exactly
    when the part of its [href] after the last slash is the file name
    of the address; the other classes of the link and its [href] are
    left alone.  The branch of the condition for an empty file name
    never applies. *)
Theorem mark_spec (pathname : list N) (a : ActiveLink.link) :
  (js "active-link" ∈ ActiveLink.classList (ActiveLink.mark pathname a) <->
   ActiveLink.linkFile a = Some (ActiveLink.current pathname)) /\
  (forall c : list N,
      c <> js "active-link" ->
      (c ∈ ActiveLink.classList (ActiveLink.mark pathname a) <->
       c ∈ ActiveLink.classList a)) /\
  ActiveLink.href (ActiveLink.mark pathname a) = ActiveLink.href a /\
  ActiveLink.is_active (ActiveLink.current pathname) (ActiveLink.linkFile a) =
    bool_decide (ActiveLink.linkFile a = Some (ActiveLink.current pathname)).
Proof.
  unfold ActiveLink.mark. rewrite is_active_spec.
  destruct (bool_decide_reflect
              (ActiveLink.linkFile a = Some (ActiveLink.current pathname)))
    as [E|E]; cbn [ActiveLink.classList ActiveLink.href].
  - split; [|split; [|split; reflexivity]].
    + rewrite classList_add_elem. tauto.
    + intros c Hc. rewrite classList_add_elem. tauto.
  - split; [|split; [|split; reflexivity]].
    + rewrite classList_remove_elem. tauto.
    + intros c Hc. rewrite classList_remove_elem. tauto.
Qed.

Lemma linkFile_slash (a : ActiveLink.link) :
  ActiveLink.href a = None \/ ActiveLink.href a = Some [] \/
  (exists d, ActiveLink.href a = Some (d ++ [47%N])) ->
  ActiveLink.linkFile a = Some [].
Proof.
  unfold ActiveLink.linkFile. intros [-> | [-> | [d ->]]]; try reflexivity.
  destruct (d ++ [47%N]) as [|c u] eqn:E.
  - reflexivity.
  - cbn [truthy from_option id]. rewrite <- E, split_snoc_slash.
    apply last_snoc.
Qed.

(** X13: a link without [href], with an empty one, or with one that
    ends in a slash (such as [./] or [/]) never gets the class
    [active-link], whatever the address is, and loses it if it had it:
    the part after the last slash is empty, and the file name of the
    address never is. *)
Theorem slash_link_never_active (pathname : list N) (a : ActiveLink.link) :
  ActiveLink.href a = None \/ ActiveLink.href a = Some [] \/
  (exists d, ActiveLink.href a = Some (d ++ [47%N])) ->
  js "active-link" ∉ ActiveLink.classList (ActiveLink.mark pathname a).
Proof.
  intros H. apply linkFile_slash in H.
  unfold ActiveLink.mark. rewrite is_active_spec, H.
  rewrite bool_decide_eq_false_2.
  - cbn [ActiveLink.classList]. rewrite classList_remove_elem. tauto.
  - intros [= E]. symmetry in E. exact (current_not_nil pathname E).
Qed.

Lemma slash_link_never_active_witness :
  js "active-link" ∉
  ActiveLink.classList
    (ActiveLink.mark (js "/") (ActiveLink.Link (Some (js "./"))
                                 [js "active-link"])).
Proof.
  apply (slash_link_never_active (js "/")).
  right. right. exists (js "."). reflexivity.
Defined.

Lemma mark_idem (pathname : list N) (a : ActiveLink.link) :
  ActiveLink.mark pathname (ActiveLink.mark pathname a) =
  ActiveLink.mark pathname a.
Proof.
  unfold ActiveLink.mark at 2.
  destruct (ActiveLink.is_active _ (ActiveLink.linkFile a)) eqn:E;
    unfold ActiveLink.mark, ActiveLink.linkFile in *;
    cbn [ActiveLink.href ActiveLink.classList]; rewrite E; f_equal.
  - apply classList_add_idem.
  - apply classList_remove_idem.
Qed.

(** X14: running the block again leaves the classes of every link as
    the first run set them, and appends one more style element to the
    head each time the navigation has a link. *)
Theorem highlight_again (pathname : list N)
  (nav : list ActiveLink.link * nat) :
  fst (ActiveLink.highlight pathname (ActiveLink.highlight pathname nav)) =
    fst (ActiveLink.highlight pathname nav) /\
  snd (ActiveLink.highlight pathname (ActiveLink.highlight pathname nav)) =
    (if decide (fst nav = []) then snd nav else S (S (snd nav))).
Proof.
  destruct nav as [links styles]. unfold ActiveLink.highlight.
  cbn [fst snd]. destruct links as [|a links]; [split; reflexivity |].
  cbn [length Nat.eqb map fst snd].
  split; [|reflexivity].
  f_equal; [apply mark_idem |].
  rewrite map_map. apply map_ext. intros x. apply mark_idem.
Qed.

Example highlight_directory :
  map ActiveLink.classList
    (fst (ActiveLink.highlight (js "/site/") (nav_links, 0%nat))) =
  [[]; [js "active-link"]; [js "btn"]; []] /\
  map ActiveLink.classList
    (fst (ActiveLink.highlight (js "/site/kontak.html") (nav_links, 0%nat))) =
  [[]; []; [js "btn"; js "active-link"]; []].
Proof. split; vm_compute; reflexivity. Qed.

(** ** The hamburger button *)

(** X15: after a click, whatever the state before it, the button and
    the navigation agree: [aria-expanded] is ["true"] or ["false"], it
    is ["true"] exactly when the navigation has the class [open] and
    exactly when the label is ['Tutup menu']; the other classes of the
    navigation are left alone.  An [aria-expanded] that is missing or
    is anything but ["true"] counts as closed. *)
Theorem click_consistent (s : Hamburger.state) :
  (Hamburger.aria_expanded (Hamburger.click s) = Some (js "true") \/
   Hamburger.aria_expanded (Hamburger.click s) = Some (js "false")) /\
  (Hamburger.aria_expanded (Hamburger.click s) = Some (js "true") <->
   js "open" ∈ Hamburger.nav (Hamburger.click s)) /\
  (Hamburger.aria_expanded (Hamburger.click s) = Some (js "true") <->
   Hamburger.aria_label (Hamburger.click s) = Some (js "Tutup menu")) /\
  (Hamburger.aria_expanded (Hamburger.click s) = Some (js "true") <->
   Hamburger.aria_expanded s <> Some (js "true")) /\
  (forall c : list N,
      c <> js "open" ->
      (c ∈ Hamburger.nav (Hamburger.click s) <-> c ∈ Hamburger.nav s)).
Proof.
  unfold Hamburger.click.
  destruct (bool_decide_reflect
              (Hamburger.aria_expanded s = Some (js "true"))) as [E|E];
    cbn [negb Hamburger.aria_expanded Hamburger.aria_label Hamburger.nav
         classList_toggle].
  - split; [right; reflexivity |].
    split; [rewrite classList_remove_elem; split;
            [intros H; vm_compute in H; discriminate H | tauto] |].
    split; [split; intros H; vm_compute in H; discriminate H |].
    split; [split; [intros H; vm_compute in H; discriminate H | tauto] |].
    intros c Hc. rewrite classList_remove_elem. tauto.
  - split; [left; reflexivity |].
    split; [rewrite classList_add_elem; tauto |].
    split; [tauto |].
    split; [tauto |].
    intros c Hc. rewrite classList_add_elem. tauto.
Qed.

Lemma click_twice (classes : list (list N)) :
  js "open" ∉ classes ->
  Hamburger.click (Hamburger.click (Hamburger.created classes)) =
  Hamburger.created classes.
Proof.
  intros H. unfold Hamburger.click, Hamburger.created.
  cbn [Hamburger.aria_expanded Hamburger.nav Hamburger.aria_label].
  rewrite (bool_decide_eq_false_2 (Some (js "false") = Some (js "true")))
    by js_neq.
  cbn [negb]. rewrite bool_decide_eq_true_2 by reflexivity.
  cbn [negb classList_toggle]. rewrite classList_remove_add by exact H.
  reflexivity.
Qed.

(** X16: from the state the block creates, beside a navigation that is
    not open, an even number of clicks leaves everything as it was, and
    after an odd number the navigation is open. *)
Theorem click_parity (classes : list (list N)) (n : nat) :
  js "open" ∉ classes ->
  Nat.iter (2 * n) Hamburger.click (Hamburger.created classes) =
    Hamburger.created classes /\
  js "open" ∈
    Hamburger.nav
      (Nat.iter (S (2 * n)) Hamburger.click (Hamburger.created classes)).
Proof.
  intros H.
  assert (Nat.iter (2 * n) Hamburger.click (Hamburger.created classes) =
          Hamburger.created classes) as E.
  { induction n as [|n IH]; [reflexivity |].
    replace (2 * S n)%nat with (S (S (2 * n))) by lia.
    cbn [Nat.iter nat_rect]. unfold Nat.iter in IH. rewrite IH.
    apply click_twice. exact H. }
  split; [exact E |].
  change (Nat.iter (S (2 * n)) Hamburger.click (Hamburger.created classes))
    with (Hamburger.click
            (Nat.iter (2 * n) Hamburger.click (Hamburger.created classes))).
  rewrite E. unfold Hamburger.click, Hamburger.created.
  cbn [Hamburger.aria_expanded Hamburger.nav].
  rewrite (bool_decide_eq_false_2 (Some (js "false") = Some (js "true")))
    by js_neq.
  cbn [negb classList_toggle]. apply classList_add_elem. left. reflexivity.
Qed.

Lemma click_parity_witness :
  js "open" ∈
    Hamburger.nav (Nat.iter 3 Hamburger.click (Hamburger.created [js "menu"])).
Proof.
  refine (proj2 (click_parity [js "menu"] 1 _)).
  intros H. apply list_elem_of_singleton in H. vm_compute in H.
  discriminate H.
Defined.

(** ** The carousel *)

Open Scope Z_scope.

Lemma go_next (n : Z) (s : Carousel.state) :
  in_range n s ->
  Carousel.go (Carousel.idx s + 1) s =
  (inr tt,
   {| Carousel.total := n;
      Carousel.idx := (Carousel.idx s + 1) mod n;
      Carousel.shift := Some ((Carousel.idx s + 1) mod n);
      Carousel.autoplay := Carousel.autoplay s;
      Carousel.intervals := Carousel.intervals s;
      Carousel.next_handle := Carousel.next_handle s |}).
Proof.
  intros [Ht Hi]. unfold Carousel.go. rewrite Ht.
  rewrite Z.rem_mod_nonneg by lia.
  replace (Carousel.idx s + 1 + n)%Z with (Carousel.idx s + 1 + 1 * n)%Z
    by lia.
  rewrite Z.mod_add by lia.
  pose proof (Z.mod_pos_bound (Carousel.idx s + 1) n ltac:(lia)) as Hb.
  replace (0 <=? (Carousel.idx s + 1) mod n)%Z with true
    by (symmetry; apply Z.leb_le; lia).
  replace ((Carousel.idx s + 1) mod n <? n)%Z with true
    by (symmetry; apply Z.ltb_lt; lia).
  reflexivity.
Qed.

Lemma handle_in_range (n : Z) (ev : Carousel.event) (s : Carousel.state) :
  in_range n s ->
  fst (Carousel.handle ev s) = inr tt /\
  in_range n (snd (Carousel.handle ev s)).
Proof.
  intros H. pose proof H as [Ht Hi].
  assert (in_range n
            {| Carousel.total := n;
               Carousel.idx := (Carousel.idx s + 1) mod n;
               Carousel.shift := Some ((Carousel.idx s + 1) mod n);
               Carousel.autoplay := Carousel.autoplay s;
               Carousel.intervals := Carousel.intervals s;
               Carousel.next_handle := Carousel.next_handle s |}) as Hgo.
  { split; [reflexivity |]. cbn.
    apply Z.mod_pos_bound. lia. }
  destruct ev as [h| | |]; cbn [Carousel.handle].
  - destruct (decide (h ∈ Carousel.intervals s)).
    + rewrite (go_next n s H). split; [reflexivity | exact Hgo].
    + split; [reflexivity | exact H].
  - split; [reflexivity | exact H].
  - split; [reflexivity | exact H].
  - rewrite (go_next n s H). split; [reflexivity | exact Hgo].
Qed.

Lemma run_in_range (n : Z) (evs : list Carousel.event) (s : Carousel.state) :
  in_range n s -> in_range n (Carousel.run evs s).
Proof.
  revert s. induction evs as [|ev evs IH]; intros s H; [exact H |].
  cbn [Carousel.run]. apply IH. apply handle_in_range. exact H.
Qed.

Lemma start_in_range (n : Z) (h : nat) :
  (1 <= n)%Z -> in_range n (Carousel.start n h).
Proof. intros H. split; cbn; [reflexivity | lia]. Qed.

(** X17: whatever the clicks, hovers and interval callbacks of a visit,
    the index of the card shown stays within the cards, and no listener
    of the carousel throws. *)
Theorem carousel_stays_in_range (n : Z) (h : nat)
  (evs : list Carousel.event) (ev : Carousel.event) :
  (1 <= n)%Z ->
  Carousel.total (Carousel.run evs (Carousel.start n h)) = n /\
  (0 <= Carousel.idx (Carousel.run evs (Carousel.start n h)) < n)%Z /\
  fst (Carousel.handle ev (Carousel.run evs (Carousel.start n h))) = inr tt.
Proof.
  intros Hn.
  pose proof (run_in_range n evs _ (start_in_range n h Hn)) as H.
  destruct (handle_in_range n ev _ H) as [H1 _].
  destruct H as [Ht Hi]. auto.
Qed.

Lemma carousel_stays_in_range_witness :
  (0 <= Carousel.idx
          (Carousel.run [Carousel.Click; Carousel.Tick 7; Carousel.MouseLeave;
                         Carousel.Tick 8; Carousel.Click]
             (Carousel.start 3 7)) < 3)%Z.
Proof.
  apply (carousel_stays_in_range 3 7
           [Carousel.Click; Carousel.Tick 7; Carousel.MouseLeave;
            Carousel.Tick 8; Carousel.Click] Carousel.Click).
  lia.
Defined.

Lemma clicks_from (n : Z) (k : nat) (s : Carousel.state) :
  in_range n s ->
  Carousel.idx (Carousel.run (repeat Carousel.Click k) s) =
  ((Carousel.idx s + Z.of_nat k) mod n)%Z.
Proof.
  revert s. induction k as [|k IH]; intros s H.
  - destruct H as [_ Hi]. cbn. rewrite Z.add_0_r.
    symmetry. apply Z.mod_small. exact Hi.
  - cbn [repeat Carousel.run Carousel.handle].
    pose proof (handle_in_range n Carousel.Click s H) as [_ H'].
    cbn [Carousel.handle] in H'. rewrite (IH _ H').
    rewrite (go_next n s H). cbn [snd Carousel.idx].
    rewrite Z.add_mod_idemp_l by (destruct H; lia).
    f_equal. lia.
Qed.

(** X18: each click moves the carousel to the next card and from the
    last card back to the first: after [k] clicks the card shown is
    number [k mod n], so [n] clicks bring the first card back. *)
Theorem clicks_wrap_around (n : Z) (h k : nat) :
  (1 <= n)%Z ->
  Carousel.idx (Carousel.run (repeat Carousel.Click k) (Carousel.start n h)) =
    (Z.of_nat k mod n)%Z /\
  Carousel.idx
    (Carousel.run (repeat Carousel.Click (Z.to_nat n)) (Carousel.start n h)) =
    0%Z.
Proof.
  intros Hn. pose proof (start_in_range n h Hn) as H.
  split.
  - rewrite (clicks_from n k _ H). reflexivity.
  - rewrite (clicks_from n (Z.to_nat n) _ H). cbn [Carousel.idx Carousel.start].
    rewrite Z2Nat.id by lia. cbn. apply Z_mod_same_full.
Qed.

Lemma clicks_wrap_around_witness :
  Carousel.idx (Carousel.run (repeat Carousel.Click 5) (Carousel.start 3 0)) =
  (5 mod 3)%Z.
Proof. apply (proj1 (clicks_wrap_around 3 0 5 ltac:(lia))). Defined.

(** X19: [go(i)] reaches the card number [i mod n] for every [i] from
    [-n] on, so [go(-1)] is the last card; for an [i] below [-n] that
    is not a multiple of [n] the index becomes negative, no card is
    found and the call throws a [TypeError], the negative index staying
    in [idx]. *)
Theorem go_spec (i : Z) (s : Carousel.state) :
  1 <= Carousel.total s ->
  (- Carousel.total s <= i ->
   fst (Carousel.go i s) = inr tt /\
   Carousel.idx (snd (Carousel.go i s)) = i mod Carousel.total s /\
   Carousel.shift (snd (Carousel.go i s)) = Some (i mod Carousel.total s)) /\
  (i < - Carousel.total s -> Z.rem i (Carousel.total s) <> 0 ->
   fst (Carousel.go i s) = inl TypeError /\
   Carousel.idx (snd (Carousel.go i s)) < 0 /\
   Carousel.shift (snd (Carousel.go i s)) = Carousel.shift s).
Proof.
  intros Hn. unfold Carousel.go. split.
  - intros Hi. rewrite Z.rem_mod_nonneg by lia.
    replace (i + Carousel.total s) with (i + 1 * Carousel.total s) by lia.
    rewrite Z.mod_add by lia.
    pose proof (Z.mod_pos_bound i (Carousel.total s) ltac:(lia)) as Hb.
    replace (0 <=? i mod Carousel.total s) with true
      by (symmetry; apply Z.leb_le; lia).
    replace (i mod Carousel.total s <? Carousel.total s) with true
      by (symmetry; apply Z.ltb_lt; lia).
    cbn. auto.
  - intros Hi Hr.
    assert (Z.rem (i + Carousel.total s) (Carousel.total s) < 0) as Hneg.
    { replace (i + Carousel.total s) with (i + 1 * Carousel.total s) by lia.
      rewrite Z.rem_add by nia.
      pose proof (Z.rem_nonpos i (Carousel.total s) ltac:(lia) ltac:(lia)).
      lia. }
    replace (0 <=? Z.rem (i + Carousel.total s) (Carousel.total s)) with false
      by (symmetry; apply Z.leb_gt; exact Hneg).
    cbn. auto.
Qed.

Lemma go_spec_witness :
  Carousel.idx (snd (Carousel.go (-1) (Carousel.start 3 0))) = (-1) mod 3 /\
  fst (Carousel.go (-4) (Carousel.start 3 0)) = inl TypeError.
Proof.
  pose proof (go_spec (-1) (Carousel.start 3 0)) as H1.
  pose proof (go_spec (-4) (Carousel.start 3 0)) as H2.
  cbn [Carousel.total Carousel.start] in H1, H2.
  destruct H1 as [H1 _]; [lia |]. destruct H2 as [_ H2]; [lia |].
  split.
  - apply H1. lia.
  - apply H2; [lia | discriminate].
Defined.

Lemma ticks_when_paused (ticks : list Carousel.event) (s : Carousel.state) :
  forallb is_tick ticks = true -> Carousel.intervals s = ∅ ->
  Carousel.run ticks s = s.
Proof.
  revert s. induction ticks as [|ev ticks IH]; intros s Ht Hs;
    [reflexivity |].
  cbn [forallb] in Ht. apply andb_true_iff in Ht as [Hev Ht].
  destruct ev as [h| | |]; try discriminate Hev.
  cbn [Carousel.run Carousel.handle]. rewrite Hs.
  destruct (decide (h ∈ (∅ : gset nat))) as [Hin|_];
    [exfalso; set_solver |].
  cbn [snd]. apply IH; assumption.
Qed.

Lemma run_app (l1 l2 : list Carousel.event) (s : Carousel.state) :
  Carousel.run (l1 ++ l2) s = Carousel.run l2 (Carousel.run l1 s).
Proof.
  revert s. induction l1 as [|e l1 IH]; intros s; [reflexivity |].
  cbn [app Carousel.run]. apply IH.
Qed.

Lemma enter_clears (s : Carousel.state) :
  Carousel.intervals s ⊆ {[Carousel.autoplay s]} ->
  Carousel.intervals (snd (Carousel.handle Carousel.MouseEnter s)) = ∅.
Proof.
  intros Hs. cbn. apply set_eq. intros x.
  rewrite elem_of_difference, elem_of_singleton. split.
  - intros [Hx Hn]. apply Hs, elem_of_singleton in Hx. contradiction.
  - intros Hx. apply elem_of_empty in Hx. contradiction.
Qed.

Lemma leave_starts (s : Carousel.state) :
  Carousel.intervals s = ∅ ->
  Carousel.intervals (snd (Carousel.handle Carousel.MouseLeave s)) =
  {[Carousel.autoplay (snd (Carousel.handle Carousel.MouseLeave s))]}.
Proof. intros Hs. cbn. rewrite Hs. apply (left_id_L ∅ (∪)). Qed.

(** X20: while the only live interval of the block is the one in
    [autoplay], hovering pauses the carousel: after [mouseenter] no
    interval of the block is live and no callback moves the cards, and
    after the [mouseleave] that follows exactly one interval is live
    again, the new one in [autoplay]. *)
Theorem hover_pauses (ticks : list Carousel.event) (s : Carousel.state) :
  Carousel.intervals s ⊆ {[Carousel.autoplay s]} ->
  forallb is_tick ticks = true ->
  Carousel.intervals (Carousel.run [Carousel.MouseEnter] s) = ∅ /\
  Carousel.idx (Carousel.run (Carousel.MouseEnter :: ticks) s) =
    Carousel.idx s /\
  Carousel.shift (Carousel.run (Carousel.MouseEnter :: ticks) s) =
    Carousel.shift s /\
  Carousel.intervals
    (Carousel.run (Carousel.MouseEnter :: ticks ++ [Carousel.MouseLeave]) s) =
    {[Carousel.autoplay
        (Carousel.run
           (Carousel.MouseEnter :: ticks ++ [Carousel.MouseLeave]) s)]}.
Proof.
  intros Hs Ht. pose proof (enter_clears s Hs) as H1.
  split; [exact H1 |].
  change (Carousel.run (Carousel.MouseEnter :: ticks) s)
    with (Carousel.run ticks (snd (Carousel.handle Carousel.MouseEnter s))).
  change (Carousel.run
            (Carousel.MouseEnter :: ticks ++ [Carousel.MouseLeave]) s)
    with (Carousel.run (ticks ++ [Carousel.MouseLeave])
            (snd (Carousel.handle Carousel.MouseEnter s))).
  rewrite run_app, (ticks_when_paused ticks _ Ht H1).
  split; [reflexivity |]. split; [reflexivity |].
  exact (leave_starts _ H1).
Qed.

Lemma hover_pauses_witness :
  Carousel.idx
    (Carousel.run [Carousel.MouseEnter; Carousel.Tick 0; Carousel.Tick 0]
       (Carousel.start 3 0)) = 0.
Proof.
  apply (hover_pauses [Carousel.Tick 0; Carousel.Tick 0] (Carousel.start 3 0)).
  - cbn. set_solver.
  - reflexivity.
Defined.

Lemma handle_fresh (ev : Carousel.event) (s : Carousel.state) :
  handles_fresh s -> handles_fresh (snd (Carousel.handle ev s)).
Proof.
  intros [Ha Hi]. unfold handles_fresh.
  destruct ev as [h| | |]; cbn [Carousel.handle].
  - destruct (decide _); [|split; assumption].
    unfold Carousel.go. destruct (_ && _); cbn; split; assumption.
  - cbn. split; [exact Ha |]. intros h Hh. apply Hi.
    apply elem_of_difference in Hh as [Hh _]. exact Hh.
  - cbn. split; [lia |]. intros h Hh.
    apply elem_of_union in Hh as [Hh|Hh].
    + specialize (Hi h Hh). lia.
    + apply elem_of_singleton in Hh. lia.
  - unfold Carousel.go. destruct (_ && _); cbn; split; assumption.
Qed.

Lemma run_fresh (evs : list Carousel.event) (s : Carousel.state) :
  handles_fresh s -> handles_fresh (Carousel.run evs s).
Proof.
  revert s. induction evs as [|ev evs IH]; intros s H; [exact H |].
  cbn [Carousel.run]. apply IH, handle_fresh, H.
Qed.

Lemma start_fresh (n : Z) (h : nat) : handles_fresh (Carousel.start n h).
Proof.
  split; cbn; [lia |]. intros x Hx. apply elem_of_singleton in Hx. lia.
Qed.

(** X21: [mouseleave] starts a new interval without clearing the one
    in [autoplay].  When it comes while that interval is live (no
    [mouseenter] came before it), the old interval stays live for
    good: the next [mouseenter] clears only the new one, and with more
    than one card the callback of the old one still moves the cards
    while the pointer is over the carousel. *)
Theorem mouseleave_leaks (n : Z) (h : nat) (evs : list Carousel.event) :
  1 < n ->
  Carousel.autoplay (Carousel.run evs (Carousel.start n h))
    ∈ Carousel.intervals (Carousel.run evs (Carousel.start n h)) ->
  Carousel.autoplay (Carousel.run evs (Carousel.start n h))
    ∈ Carousel.intervals
        (Carousel.run (evs ++ [Carousel.MouseLeave; Carousel.MouseEnter])
           (Carousel.start n h)) /\
  Carousel.idx
    (Carousel.run
       (evs ++ [Carousel.MouseLeave; Carousel.MouseEnter;
                Carousel.Tick
                  (Carousel.autoplay (Carousel.run evs (Carousel.start n h)))])
       (Carousel.start n h)) <>
  Carousel.idx
    (Carousel.run (evs ++ [Carousel.MouseLeave; Carousel.MouseEnter])
       (Carousel.start n h)).
Proof.
  intros Hn Hlive.
  rewrite !run_app.
  set (s := Carousel.run evs (Carousel.start n h)) in *.
  pose proof (run_fresh evs _ (start_fresh n h)) as [Hfresh _].
  fold s in Hfresh.
  pose proof (run_in_range n evs _ (start_in_range n h ltac:(lia))) as Hr.
  fold s in Hr.
  assert (Carousel.autoplay s
            ∈ Carousel.intervals
                (Carousel.run [Carousel.MouseLeave; Carousel.MouseEnter] s))
    as Hold.
  { cbn. apply elem_of_difference. split; [set_solver |].
    intros Hx. apply elem_of_singleton in Hx. lia. }
  split; [exact Hold |].
  change (Carousel.run [Carousel.MouseLeave; Carousel.MouseEnter;
                        Carousel.Tick (Carousel.autoplay s)] s)
    with (snd (Carousel.handle (Carousel.Tick (Carousel.autoplay s))
                 (Carousel.run [Carousel.MouseLeave; Carousel.MouseEnter] s))).
  set (s2 := Carousel.run [Carousel.MouseLeave; Carousel.MouseEnter] s) in *.
  assert (in_range n s2) as Hr2 by (apply run_in_range; exact Hr).
  cbn [Carousel.handle].
  destruct (decide _) as [_|Hno]; [|contradiction].
  rewrite (go_next n s2 Hr2). cbn [snd Carousel.idx].
  destruct Hr2 as [_ Hi].
  destruct (Z.lt_ge_cases (Carousel.idx s2 + 1) n) as [Hlt|Hge].
  - rewrite Z.mod_small by lia. lia.
  - replace (Carousel.idx s2 + 1) with n by lia.
    rewrite Z_mod_same_full. lia.
Qed.

Lemma mouseleave_leaks_witness :
  (0 : nat) ∈ Carousel.intervals
        (Carousel.run ([] ++ [Carousel.MouseLeave; Carousel.MouseEnter])
           (Carousel.start 3 0)).
Proof.
  apply (mouseleave_leaks 3 0 []); [lia |]. cbn. set_solver.
Defined.

Close Scope Z_scope.

(** ** Lazy images *)

(** One entry of a batch, seen from position [i]: the element there
    goes through [f] when the entry is for [i] and intersecting. *)
Lemma entry_step {A} (f : A -> A) (l : list A) (i : nat) (ent : nat * bool) :
  (if snd ent then alter f (fst ent) l else l) !! i =
  (if (fst ent =? i)%nat && snd ent then f else id) <$> l !! i.
Proof.
  destruct ent as [j b]. cbn [fst snd].
  destruct b; [|rewrite andb_false_r; destruct (l !! i); reflexivity].
  rewrite andb_true_r. destruct (Nat.eqb_spec j i) as [->|Hne].
  - apply list_lookup_alter_eq.
  - rewrite list_lookup_alter_ne by exact Hne.
    destruct (l !! i); reflexivity.
Qed.

(** A state that [f] leaves alone once it was applied: after the
    entries, position [i] holds [f x] if one of them hit it, and [x]
    if none did. *)
Lemma entries_fold {A} (f : A -> A) (x : A) (entries : list (nat * bool))
  (l : list A) (i : nat) (h : bool) :
  f (f x) = f x ->
  l !! i = Some (if h then f x else x) ->
  foldl (fun (l : list A) (ent : nat * bool) =>
           if snd ent then alter f (fst ent) l else l) l entries !! i =
  Some (if h || existsb (fun ent : nat * bool =>
                           (fst ent =? i)%nat && snd ent) entries
        then f x else x).
Proof.
  intros Hf. revert l h. induction entries as [|ent entries IH];
    intros l h Hl.
  - cbn. rewrite orb_false_r. exact Hl.
  - cbn [foldl existsb].
    rewrite (IH _ (h || ((fst ent =? i)%nat && snd ent))).
    + rewrite orb_assoc. reflexivity.
    + rewrite entry_step, Hl. cbn.
      destruct h, ((fst ent =? i)%nat && snd ent); cbn; congruence.
Qed.

Lemma batches_fold {A} (f : A -> A) (x : A) (batches : list (list (nat * bool)))
  (l : list A) (i : nat) (h : bool) :
  f (f x) = f x ->
  l !! i = Some (if h then f x else x) ->
  foldl (fun (l : list A) (entries : list (nat * bool)) =>
           foldl (fun (l : list A) (ent : nat * bool) =>
                    if snd ent then alter f (fst ent) l else l) l entries)
        l batches !! i =
  Some (if h || hit i batches then f x else x).
Proof.
  intros Hf. revert l h. induction batches as [|entries batches IH];
    intros l h Hl.
  - cbn. rewrite orb_false_r. exact Hl.
  - cbn [foldl hit existsb].
    rewrite (IH _ (h || existsb (fun ent : nat * bool =>
                                   (fst ent =? i)%nat && snd ent) entries)).
    + rewrite orb_assoc. reflexivity.
    + apply entries_fold; assumption.
Qed.

Lemma load_load (im : Lazy.img) : Lazy.load (Lazy.load im) = Lazy.load im.
Proof.
  destruct im as [s d o]. unfold Lazy.load. cbn.
  destruct (truthy d) eqn:E; cbn; [reflexivity |]. rewrite E. reflexivity.
Qed.

(** X22: with [IntersectionObserver], the block watches exactly the
    images that have a non-empty [data-src].  Such an image is left as
    it is until the observer reports it as intersecting; from then on
    its [src] is the former [data-src], the [data-src] is gone and the
    image is no longer watched, whatever is reported later.  An image
    without [data-src], or with an empty one, is never changed. *)
Theorem lazy_images (imgs : list Lazy.img)
  (batches : list (list (nat * bool))) (i : nat) (im : Lazy.img) :
  Lazy.observed im = false ->
  imgs !! i = Some im ->
  lazy_callbacks batches (Lazy.init true imgs) !! i =
  Some (if truthy (Lazy.data_src im)
        then if hit i batches
             then Lazy.Img (Lazy.data_src im) None false
             else Lazy.observe im
        else im).
Proof.
  intros Ho Hi. unfold lazy_callbacks, Lazy.callback.
  rewrite (batches_fold Lazy.load
             (if truthy (Lazy.data_src im) then Lazy.observe im else im)
             batches _ i false).
  - cbn [orb]. destruct im as [s d o]. cbn in Ho. subst o.
    unfold Lazy.load, Lazy.observe. cbn.
    destruct (truthy d) eqn:Ed; cbn; rewrite Ed;
      destruct (hit i batches); reflexivity.
  - apply load_load.
  - unfold Lazy.init. rewrite list_lookup_fmap, Hi. reflexivity.
Qed.

Lemma lazy_images_witness :
  lazy_callbacks [[(1%nat, true); (0%nat, false)]; [(0%nat, true)]]
    (Lazy.init true page_imgs) !! 0%nat =
  Some (Lazy.Img (Some (js "a.png")) None false).
Proof.
  apply (lazy_images page_imgs
           [[(1%nat, true); (0%nat, false)]; [(0%nat, true)]] 0%nat
           (Lazy.Img None (Some (js "a.png")) false));
    reflexivity.
Defined.

(** ** Reveal on scroll *)

Lemma reveal_reveal (t : Reveal.target) :
  Reveal.reveal (Reveal.reveal t) = Reveal.reveal t.
Proof.
  unfold Reveal.reveal. cbn. rewrite classList_add_idem. reflexivity.
Qed.

(** X23: every target gets the class [reveal] and keeps its own
    classes.  With [IntersectionObserver] and without reduced motion a
    target is watched and does not have [in] added until the observer
    reports it as intersecting; from then on it has [in] and is no
    longer watched.  With reduced motion, or without
    [IntersectionObserver], every target gets [in] at once. *)
Theorem reveal_targets (prefersReduced hasIO : bool)
  (targets : list Reveal.target) (batches : list (list (nat * bool)))
  (i : nat) (t : Reveal.target) :
  targets !! i = Some t ->
  (hasIO && negb prefersReduced = true ->
   reveal_callbacks batches (Reveal.initReveal prefersReduced hasIO targets)
     !! i =
   Some (if hit i batches
         then Reveal.Target
                (classList_add (js "in")
                   (classList_add (js "reveal") (Reveal.classList t))) false
         else Reveal.Target
                (classList_add (js "reveal") (Reveal.classList t)) true)) /\
  (hasIO && negb prefersReduced = false ->
   Reveal.initReveal prefersReduced hasIO targets !! i =
   Some (Reveal.Target
           (classList_add (js "in")
              (classList_add (js "reveal") (Reveal.classList t)))
           (Reveal.observed t))).
Proof.
  intros Hi. split; intros Hm.
  - unfold reveal_callbacks, Reveal.callback.
    rewrite (batches_fold Reveal.reveal
               (Reveal.Target
                  (classList_add (js "reveal") (Reveal.classList t)) true)
               batches _ i false).
    + cbn [orb]. destruct (hit i batches); reflexivity.
    + apply reveal_reveal.
    + unfold Reveal.initReveal. rewrite Hm.
      rewrite !list_lookup_fmap, Hi. reflexivity.
  - unfold Reveal.initReveal. rewrite Hm.
    rewrite !list_lookup_fmap, Hi. reflexivity.
Qed.

Lemma reveal_targets_witness :
  reveal_callbacks [[(0%nat, true)]]
    (Reveal.initReveal false true [Reveal.Target [js "hero"] false]) !! 0%nat =
  Some (Reveal.Target [js "hero"; js "reveal"; js "in"] false).
Proof.
  apply (proj1 (reveal_targets false true [Reveal.Target [js "hero"] false]
                  [[(0%nat, true)]] 0%nat (Reveal.Target [js "hero"] false)
                  eq_refl)).
  reflexivity.
Defined.

(** ** The properties above at concrete inputs *)

Lemma submission_accepted_iff_witness :
  validate (collect (FormData formA)) = [].
Proof.
  apply (proj2 (submission_accepted_iff (FormData formA))).
  exists (js "  Ana "), (js "ana@mail.com"), (js "08123456"),
    (js "Hello, I am interested in the course.").
  repeat split; try reflexivity.
  - vm_compute. discriminate.
  - apply test_spec. vm_compute. reflexivity.
  - vm_compute. lia.
  - vm_compute. lia.
Defined.

Lemma email_test_iff_witness :
  exists a b c : list N,
    js "ana@mail.com" = a ++ js "@" ++ b ++ js "." ++ c /\
    a <> [] /\ b <> [] /\ c <> [] /\
    forallb not_space_at (a ++ b ++ c) = true.
Proof.
  apply (proj1 (email_test_iff (js "ana@mail.com"))). reflexivity.
Defined.

Lemma mark_spec_witness :
  js "active-link" ∈
  ActiveLink.classList
    (ActiveLink.mark (js "/site/kontak.html")
       (ActiveLink.Link (Some (js "pages/kontak.html")) [js "btn"])).
Proof.
  apply (proj2 (proj1 (mark_spec (js "/site/kontak.html")
                         (ActiveLink.Link (Some (js "pages/kontak.html"))
                            [js "btn"])))).
  reflexivity.
Defined.

Lemma click_consistent_witness :
  js "menu" ∈ Hamburger.nav (Hamburger.click (Hamburger.created [js "menu"])).
Proof.
  destruct (click_consistent (Hamburger.created [js "menu"]))
    as (_ & _ & _ & _ & H).
  apply (H (js "menu")); [js_neq |].
  apply list_elem_of_singleton. reflexivity.
Defined.
